(** * hack1.py: live transcription worker, summariser and session control

    A shallow embedding of [src/hack1.py].  The program captures
    microphone blocks through a driver callback into a global queue, a
    background [QThread] drains the queue into a Vosk recogniser and
    accumulates the transcript, and when its [recording] flag is cleared
    it summarises the transcript with sumy's LSA summariser.

    Python values are modelled as follows.
    - [str] is a list of Unicode code points, so that [str.split()] can use
      Python's own notion of whitespace;
    - [bytes] is a list of bytes;
    - an exception is a record naming its class;
    - objects that are shared by reference (streams, threads) live in
      stores indexed by their address, attributes that may be missing
      ([hasattr]) are options;
    - the third-party libraries (vosk, json, sumy) are interfaces, i.e.
      type classes, over which every definition is parametric. *)

From Stdlib Require Import String Ascii NArith ZArith List Bool Lia.
From stdpp Require Import base option list gmap.
Import ListNotations.

Set Default Proof Using "Type".
Open Scope nat_scope.

(** ** Python strings *)

Abbreviation char := N (only parsing).
Abbreviation str := (list N) (only parsing).
Abbreviation bytes := (list Byte.byte) (only parsing).

(** An ASCII literal of the source as a [str]. *)
Definition py (s : string) : str :=
  map N_of_ascii (list_ascii_of_string s).

(** [str.isspace] on one code point (the table of CPython's
    [_PyUnicode_IsWhitespace]). *)
Definition isspace (c : char) : bool :=
  ((9 <=? c) && (c <=? 13) ||
   (28 <=? c) && (c <=? 32) ||
   (c =? 133) || (c =? 160) || (c =? 5760) ||
   (8192 <=? c) && (c <=? 8202) ||
   (c =? 8232) || (c =? 8233) || (c =? 8239) || (c =? 8287) ||
   (c =? 12288))%N.

(** [text.split()] with no argument: the maximal runs of non-whitespace
    characters, in order; [word] is the run being read, reversed. *)
Fixpoint split_from (word : str) (text : str) : list str :=
  match text with
  | [] => match word with [] => [] | _ => [rev word] end
  | c :: rest =>
      if isspace c
      then match word with
           | [] => split_from [] rest
           | _ => rev word :: split_from [] rest
           end
      else split_from (c :: word) rest
  end.

Definition split (text : str) : list str := split_from [] text.

(** [sep.join(parts)]. *)
Fixpoint join (sep : str) (parts : list str) : str :=
  match parts with
  | [] => []
  | [p] => p
  | p :: ps => p ++ sep ++ join sep ps
  end.

(** ** Exceptions *)

Record exn := Exn { exn_class : string; exn_msg : string }.

Definition AttributeError (obj attr : string) : exn :=
  Exn "AttributeError"
      (String.append "'" (String.append obj
         (String.append "' object has no attribute '"
            (String.append attr "'")))).

Definition PortAudioError : exn :=
  Exn "PortAudioError" "Error opening RawInputStream".

(** ** The sumy interface

    [PlaintextParser.from_string(text, Tokenizer("english")).document],
    [document.sentences], [LsaSummarizer()(document, n)] and
    [str(sentence)].  The ranking inside [LsaSummarizer] is numerical
    linear algebra of the library; the program only passes the document
    and the count, and prints the sentences it gets back.  The interface
    carries no law: what a property needs of the library, it states. *)
Class Sumy := {
  document : Type;
  sentence : Type;
  parser_document : str -> document;
  document_sentences : document -> list sentence;
  LsaSummarizer : document -> Z -> list sentence;
  sentence_str : sentence -> str;
}.

(** The calls into sumy that one run of the summariser makes. *)
Inductive sumy_call :=
  | PlaintextParser_from_string (text : str)
  | LsaSummarizer_call (sentences_count : Z).

Section Summarizer.
Context `{!Sumy}.

Definition not_enough : str := py "Summary: Not enough data for summarization.".

(** [AudioProcessingThread.generate_summary], with the library calls it
    makes on the way. *)
Definition generate_summary_run (text : str) : str * list sumy_call :=
  if length (split text) <? 10 then (not_enough, [])
  else
    let document := parser_document text in
    let summary_sentences := LsaSummarizer document 2 in
    let summary := join (py " ") (map sentence_str summary_sentences) in
    (py "Summary: " ++ summary,
     [PlaintextParser_from_string text; LsaSummarizer_call 2]).

Definition generate_summary (text : str) : str :=
  fst (generate_summary_run text).

End Summarizer.

(** ** The vosk and json interfaces

    [vosk.KaldiRecognizer(model, rate)] builds a recogniser, a stateful
    object: its state is threaded through the calls.  [AcceptWaveform]
    tells whether the block completed an utterance and raises when the
    block cannot be processed; [Result] returns the finalised utterance as
    JSON text and resets the recogniser for the next one.  [json.loads]
    parses that text into a dict (of the string-valued members) or
    raises. *)
Class Vosk := {
  vosk_Model : Type;
  KaldiRecognizer : Type;
  model : vosk_Model;
  KaldiRecognizer_new : vosk_Model -> Z -> KaldiRecognizer;
  AcceptWaveform : KaldiRecognizer -> bytes -> exn + (bool * KaldiRecognizer);
  Result : KaldiRecognizer -> str * KaldiRecognizer;
}.

Class Json := {
  json_loads : str -> exn + gmap str str;
}.

(** [d.get(key, default)]. *)
Definition dict_get (d : gmap str str) (key default : str) : str :=
  match d !! key with Some v => v | None => default end.

(** ** The recognition worker: [AudioProcessingThread] *)

Inductive signal :=
  | transcription_signal (text : str)
  | summary_signal (summary : str).

(** Where a [QThread] is: not started, inside [run], returned from [run],
    or left [run] by an exception. *)
Inductive run_state :=
  | NotStarted
  | Running
  | Finished
  | Raised (e : exn).

Definition is_running (s : run_state) : bool :=
  match s with Running => true | _ => false end.

Section Worker.
Context `{!Sumy, !Vosk, !Json}.

(** The attributes [self.model] and [self.recording], the thread's
    position, and the two locals of [run]. *)
Record AudioProcessingThread := Thread {
  thread_model : vosk_Model;
  recording : bool;
  running : run_state;
  recognizer : KaldiRecognizer;
  transcription : str;
}.

Definition set_recording (b : bool) (t : AudioProcessingThread) :=
  Thread (thread_model t) b (running t) (recognizer t) (transcription t).
Definition set_running (s : run_state) (t : AudioProcessingThread) :=
  Thread (thread_model t) (recording t) s (recognizer t) (transcription t).
Definition set_recognizer (r : KaldiRecognizer) (t : AudioProcessingThread) :=
  Thread (thread_model t) (recording t) (running t) r (transcription t).
Definition set_transcription (s : str) (t : AudioProcessingThread) :=
  Thread (thread_model t) (recording t) (running t) (recognizer t) s.

(** [AudioProcessingThread(model)]: [__init__] sets [recording = True]. *)
Definition AudioProcessingThread_init (m : vosk_Model) : AudioProcessingThread :=
  Thread m true NotStarted (KaldiRecognizer_new m 16000) [].

(** [QThread.start()]: the thread enters [run], whose first two lines
    build the recogniser and the empty transcription. *)
Definition QThread_start (t : AudioProcessingThread) : AudioProcessingThread :=
  match running t with
  | Running => t
  | _ => Thread (thread_model t) (recording t) Running
           (KaldiRecognizer_new (thread_model t) 16000) []
  end.

(** [AudioProcessingThread.stop]. *)
Definition AudioProcessingThread_stop (t : AudioProcessingThread) :=
  set_recording false t.

(** One turn of [run] on the shared queue: the test of [self.recording]
    and either one pass through the loop body or, when the flag is
    clear, the two lines after the loop.  Yields the queue, the thread
    and the signals emitted.  No exception is caught anywhere in [run]:
    one raised by [AcceptWaveform] or [json.loads] ends the thread. *)
Definition run_step (q : list bytes) (t : AudioProcessingThread)
  : list bytes * AudioProcessingThread * list signal :=
  match running t with
  | Running =>
      if recording t then
        match q with
        | [] => (q, t, [])
        | data :: q' =>
            match AcceptWaveform (recognizer t) data with
            | inl e => (q', set_running (Raised e) t, [])
            | inr (false, r) => (q', set_recognizer r t, [])
            | inr (true, r) =>
                let '(js, r') := Result r in
                match json_loads js with
                | inl e => (q', set_running (Raised e) (set_recognizer r' t), [])
                | inr result =>
                    let text := dict_get result (py "text") [] in
                    let transcription' := transcription t ++ text ++ py " " in
                    (q', set_transcription transcription' (set_recognizer r' t),
                     [transcription_signal transcription'])
                end
            end
        end
      else
        let summary := generate_summary (transcription t) in
        (q, set_running Finished t, [summary_signal summary])
  | _ => (q, t, [])
  end.

(** [n] turns of [run] in a row, nothing else running in between. *)
Fixpoint run_steps (n : nat) (q : list bytes) (t : AudioProcessingThread)
  : list bytes * AudioProcessingThread * list signal :=
  match n with
  | 0 => (q, t, [])
  | S n' =>
      let '(q1, t1, s1) := run_step q t in
      let '(q2, t2, s2) := run_steps n' q1 t1 in
      (q2, t2, s1 ++ s2)
  end.

(** What the streaming decoder finalises on a run of blocks, in
    production order, up to the first block it fails on: the reference
    the transcript is compared with. *)
Fixpoint segments (r : KaldiRecognizer) (frames : list bytes) : list str :=
  match frames with
  | [] => []
  | data :: rest =>
      match AcceptWaveform r data with
      | inl _ => []
      | inr (false, r') => segments r' rest
      | inr (true, r') =>
          let '(js, r'') := Result r' in
          match json_loads js with
          | inl _ => []
          | inr result => dict_get result (py "text") [] :: segments r'' rest
          end
      end
  end.

(** How many of the blocks the worker gets through before an exception
    ends it: all of them, or those up to and including the first block on
    which [AcceptWaveform] or [json.loads] raises. *)
Fixpoint consumable (r : KaldiRecognizer) (frames : list bytes) : nat :=
  match frames with
  | [] => 0
  | data :: rest =>
      match AcceptWaveform r data with
      | inl _ => 1
      | inr (false, r') => S (consumable r' rest)
      | inr (true, r') =>
          let '(js, r'') := Result r' in
          match json_loads js with
          | inl _ => 1
          | inr _ => S (consumable r'' rest)
          end
      end
  end.

(** Each segment followed by a single space, concatenated. *)
Definition transcript_of (segs : list str) : str :=
  concat (map (fun s => s ++ py " ") segs).

(** The transcripts notified while [segs] are appended to [acc]. *)
Fixpoint notifications (acc : str) (segs : list str) : list signal :=
  match segs with
  | [] => []
  | s :: rest =>
      transcription_signal (acc ++ s ++ py " ")
        :: notifications (acc ++ s ++ py " ") rest
  end.

End Worker.

(** ** Audio streams: [sd.RawInputStream]

    A stream is opened by its constructor, made active by [start],
    inactive by [stop] and released by [close].  The program calls [stop]
    and [close] with their default [ignore_errors=True], so neither
    raises; [start] on a closed stream does. *)
Inductive stream_state :=
  | Opened
  | Active
  | Closed.

Definition Stream_start (s : stream_state) : exn + stream_state :=
  match s with
  | Closed => inl PortAudioError
  | _ => inr Active
  end.

Definition Stream_stop (s : stream_state) : stream_state :=
  match s with
  | Active => Opened
  | _ => s
  end.

Definition Stream_close (s : stream_state) : stream_state := Closed.

Definition is_open (s : stream_state) : bool :=
  match s with Closed => false | _ => true end.

(** ** The session controller: [MeetingSummarizerApp] and its world *)

(** The text last given to [setText] of each of the two read-only panes
    (what the widget makes of it on the screen is the toolkit's), and the
    attributes [stream] and [audio_thread], which do not exist before
    the first [start_recording]; they hold references into the stores
    below. *)
Record MeetingSummarizerApp := App {
  transcription_output : str;
  summary_output : str;
  stream : option nat;
  audio_thread : option nat;
}.

Definition update_transcription (text : str) (a : MeetingSummarizerApp) :=
  App text (summary_output a) (stream a) (audio_thread a).
Definition update_summary (summary : str) (a : MeetingSummarizerApp) :=
  App (transcription_output a) summary (stream a) (audio_thread a).
Definition set_stream (s : option nat) (a : MeetingSummarizerApp) :=
  App (transcription_output a) (summary_output a) s (audio_thread a).
Definition set_audio_thread (t : option nat) (a : MeetingSummarizerApp) :=
  App (transcription_output a) (summary_output a) (stream a) t.

(** [initUI] leaves both panes empty. *)
Definition MeetingSummarizerApp_init : MeetingSummarizerApp :=
  App [] [] None None.

(** The text [start_recording] puts in the transcription pane: U+1F3A4
    followed by an ASCII tail. *)
Definition recording_banner : str :=
  127908%N :: py " Recording... Speak Now!".

Section Session.
Context `{!Sumy, !Vosk, !Json}.

(** Everything the program can touch: the global [audio_queue] (oldest
    block first), what was printed on [sys.stderr], whether the microphone
    can be opened, the stream and thread objects ever created, the signals
    emitted so far with their sender, and the application object. *)
Record world := World {
  audio_queue : list bytes;
  stderr : list str;
  microphone : bool;
  streams : list stream_state;
  threads : list AudioProcessingThread;
  emitted : list (nat * signal);
  app : MeetingSummarizerApp;
}.

Definition set_audio_queue (q : list bytes) (w : world) :=
  World q (stderr w) (microphone w) (streams w) (threads w) (emitted w) (app w).
Definition set_stderr (e : list str) (w : world) :=
  World (audio_queue w) e (microphone w) (streams w) (threads w) (emitted w) (app w).
Definition set_streams (s : list stream_state) (w : world) :=
  World (audio_queue w) (stderr w) (microphone w) s (threads w) (emitted w) (app w).
Definition set_threads (t : list AudioProcessingThread) (w : world) :=
  World (audio_queue w) (stderr w) (microphone w) (streams w) t (emitted w) (app w).
Definition set_emitted (e : list (nat * signal)) (w : world) :=
  World (audio_queue w) (stderr w) (microphone w) (streams w) (threads w) e (app w).
Definition set_app (a : MeetingSummarizerApp) (w : world) :=
  World (audio_queue w) (stderr w) (microphone w) (streams w) (threads w) (emitted w) a.

(** The world in which [MeetingSummarizerApp()] has just been built. *)
Definition world_init (mic : bool) : world :=
  World [] [] mic [] [] [] MeetingSummarizerApp_init.

(** [callback(indata, frames, time, status)], called by the audio driver:
    a status with flags set is printed, the block is queued.  [frames]
    and [time] are not used. *)
Definition callback (indata : bytes) (status : option str) (w : world) : world :=
  let w1 := match status with
            | Some flags => set_stderr (stderr w ++ [flags]) w
            | None => w
            end in
  set_audio_queue (audio_queue w1 ++ [indata]) w1.

(** A signal emitted while the thread of the application is in its event
    loop: Qt queues the call of the slot connected in [start_recording]
    for that thread, which runs the queued calls in emission order; the
    call is taken to have run before the next event.  The panes hold the
    text last given to [setText]. *)
Definition emit (tid : nat) (w : world) (s : signal) : world :=
  let a := match s with
           | transcription_signal text => update_transcription text (app w)
           | summary_signal summary => update_summary summary (app w)
           end in
  set_app a (set_emitted (emitted w ++ [(tid, s)]) w).

(** Thread [tid] takes one turn of [run]. *)
Definition thread_step (tid : nat) (w : world) : world :=
  match threads w !! tid with
  | None => w
  | Some t =>
      let '(q, t', sigs) := run_step (audio_queue w) t in
      foldl (emit tid) (set_threads (<[tid := t']> (threads w)) (set_audio_queue q w)) sigs
  end.

(** A signal emitted while the thread of the application is blocked, as
    it is inside [wait()]: the signal is sent, the call of the slot stays
    queued and the panes are as they were. *)
Definition post (tid : nat) (w : world) (s : signal) : world :=
  set_emitted (emitted w ++ [(tid, s)]) w.

(** Thread [tid] takes one turn of [run] while the thread of the
    application is blocked. *)
Definition thread_step_blocked (tid : nat) (w : world) : world :=
  match threads w !! tid with
  | None => w
  | Some t =>
      let '(q, t', sigs) := run_step (audio_queue w) t in
      foldl (post tid) (set_threads (<[tid := t']> (threads w)) (set_audio_queue q w)) sigs
  end.

(** The calls of slots queued for the given signals run, in order, once
    the thread of the application is back in its event loop. *)
Definition run_slots (sigs : list (nat * signal)) (w : world) : world :=
  foldl (fun w' p =>
           match snd p with
           | transcription_signal text =>
               set_app (update_transcription text (app w')) w'
           | summary_signal summary =>
               set_app (update_summary summary (app w')) w'
           end) w sigs.

(** The transcription and the position of thread [tid], if it exists. *)
Definition transcription_at (tid : nat) (w : world) : option str :=
  transcription <$> threads w !! tid.
Definition running_at (tid : nat) (w : world) : option run_state :=
  running <$> threads w !! tid.

(** [QThread.isRunning()]. *)
Definition isRunning (tid : nat) (w : world) : bool :=
  match threads w !! tid with
  | Some t => is_running (running t)
  | None => false
  end.

(** [QThread.wait()]: the caller, the thread of the application, is
    blocked while the thread takes its turns, until it has left [run];
    [None] when [fuel] turns did not suffice. *)
Fixpoint QThread_wait (fuel : nat) (tid : nat) (w : world) : option world :=
  match fuel with
  | 0 => None
  | S fuel' =>
      if isRunning tid w then QThread_wait fuel' tid (thread_step_blocked tid w)
      else Some w
  end.

(** [MeetingSummarizerApp.start_recording].  There is no test of whether a
    session is running.  Yields the world and the exception raised, if
    any. *)
Definition start_recording (w : world) : world * option exn :=
  let w1 := set_app (update_transcription recording_banner (app w)) w in
  if microphone w1 then
    let sid := length (streams w1) in
    let w2 := set_app (set_stream (Some sid) (app w1))
                (set_streams (streams w1 ++ [Opened]) w1) in
    match Stream_start Opened with
    | inl e => (w2, Some e)
    | inr s =>
        let w3 := set_streams (<[sid := s]> (streams w2)) w2 in
        let tid := length (threads w3) in
        let w4 := set_app (set_audio_thread (Some tid) (app w3))
                    (set_threads (threads w3 ++ [AudioProcessingThread_init model]) w3) in
        let w5 := set_threads (alter QThread_start tid (threads w4)) w4 in
        (w5, None)
    end
  else (w1, Some PortAudioError).

(** [MeetingSummarizerApp.stop_recording].  [self.stream] is read
    unguarded; only [audio_thread] is looked up with [hasattr].
    [quit()] ends an event loop, which [run] never enters, and does
    nothing.  [None] when the wait ran out of fuel. *)
Definition stop_recording (fuel : nat) (w : world) : option (world * option exn) :=
  match stream (app w) with
  | None => Some (w, Some (AttributeError "MeetingSummarizerApp" "stream"))
  | Some sid =>
      let w1 := set_streams (alter Stream_stop sid (streams w)) w in
      let w2 := set_streams (alter Stream_close sid (streams w1)) w1 in
      match audio_thread (app w2) with
      | Some tid =>
          if isRunning tid w2 then
            let w3 := set_threads (alter AudioProcessingThread_stop tid (threads w2)) w2 in
            match QThread_wait fuel tid w3 with
            | Some w4 => Some (w4, None)
            | None => None
            end
          else Some (w2, None)
      | None => Some (w2, None)
      end
  end.

(** What can happen between two commands of the user: the driver delivers
    a block, or a thread takes a turn. *)
Inductive event :=
  | Block (indata : bytes) (status : option str)
  | Turn (tid : nat).

Definition happen (w : world) (ev : event) : world :=
  match ev with
  | Block indata status => callback indata status w
  | Turn tid => thread_step tid w
  end.

Definition happen_all (evs : list event) (w : world) : world :=
  foldl happen w evs.

(** The blocks delivered by a schedule, in order. *)
Definition blocks_of (evs : list event) : list bytes :=
  omap (fun ev => match ev with Block indata _ => Some indata | Turn _ => None end) evs.

(** How many blocks the turns of a schedule take from a queue that holds
    [queued] blocks at its start, as long as the consumer goes on: a turn
    takes one when there is one. *)
Fixpoint taken (queued : nat) (evs : list event) : nat :=
  match evs with
  | [] => 0
  | Block _ _ :: rest => taken (S queued) rest
  | Turn _ :: rest =>
      match queued with
      | 0 => taken 0 rest
      | S queued' => S (taken queued' rest)
      end
  end.

(** Only thread [tid] takes turns in the schedule: a single consumer. *)
Definition only_consumer (tid : nat) (evs : list event) : bool :=
  forallb (fun ev => match ev with
                     | Turn tid' => Nat.eqb tid' tid
                     | Block _ _ => true
                     end) evs.

(** The signals thread [tid] has emitted. *)
Definition emitted_by (tid : nat) (w : world) : list signal :=
  omap (fun p : nat * signal => if Nat.eqb (fst p) tid then Some (snd p) else None) (emitted w).

Definition is_summary (s : signal) : bool :=
  match s with summary_signal _ => true | _ => false end.

Definition open_streams (w : world) : list stream_state :=
  filter (fun s => is_open s = true) (streams w).

End Session.

(** ** Stand-ins for the libraries

    Small executable instances of the three interfaces, on which the
    definitions above can be run.
    - The recogniser buffers the bytes it is given; a block ending in a
      zero byte completes an utterance, whose text is the buffered bytes;
      a block containing the byte 255 cannot be processed.
    - [json.loads] wraps the text it is given as the [text] member, and
      yields an object without that member on the text [{}].
    - The summariser splits at full stops and keeps the first sentences. *)

Definition waveform_failure : exn := Exn "Exception" "Failed to process waveform".

Definition fake_accept (r : bytes) (data : bytes) : exn + (bool * bytes) :=
  if existsb (Byte.eqb Byte.xff) data
  then inl waveform_failure
  else match rev data with
       | Byte.x00 :: body => inr (true, r ++ rev body)
       | _ => inr (false, r ++ data)
       end.

Definition fake_result (r : bytes) : str * bytes :=
  (map Byte.to_N r, []).

Definition fake_vosk : Vosk := {|
  vosk_Model := unit;
  KaldiRecognizer := bytes;
  model := tt;
  KaldiRecognizer_new := fun _ _ => [];
  AcceptWaveform := fake_accept;
  Result := fake_result;
|}.

Definition fake_json : Json := {|
  json_loads := fun js =>
    if decide (js = py "{}") then inr ∅ else inr {[ py "text" := js ]};
|}.

(** Sentences end at a full stop (code point 46); blanks before a
    sentence are dropped; [cur] is the sentence being read, reversed. *)
Fixpoint fake_sentences (cur : str) (text : str) : list str :=
  match text with
  | [] => match cur with [] => [] | _ => [rev cur] end
  | c :: rest =>
      if (c =? 46)%N then rev (c :: cur) :: fake_sentences [] rest
      else match cur with
           | [] => if isspace c then fake_sentences [] rest
                   else fake_sentences [c] rest
           | _ => fake_sentences (c :: cur) rest
           end
  end.

Definition fake_sumy : Sumy := {|
  document := list str;
  sentence := str;
  parser_document := fake_sentences [];
  document_sentences := fun d => d;
  LsaSummarizer := fun d n => take (Z.to_nat n) d;
  sentence_str := fun s => s;
|}.

(** A block of audio carrying the given text, and the end of an
    utterance. *)
Definition block (s : string) : bytes := list_byte_of_string s.
Definition block_end (s : string) : bytes := list_byte_of_string s ++ [Byte.x00].
Definition block_bad : bytes := [Byte.xff].

Abbreviation fake_world := (@world fake_vosk).
Definition fake_start : fake_world -> fake_world * option exn :=
  @start_recording fake_vosk.
Definition fake_stop : nat -> fake_world -> option (fake_world * option exn) :=
  @stop_recording fake_sumy fake_vosk fake_json.
Definition fake_happen_all : list event -> fake_world -> fake_world :=
  @happen_all fake_sumy fake_vosk fake_json.

(** A session in progress: recording started, three blocks delivered and
    consumed, two utterances finalised. *)
Definition session_started : fake_world :=
  fst (fake_start (@world_init fake_vosk true)).

Definition session_schedule : list event :=
  [Block (block "hello ") None; Block (block_end "world") None;
   Block (block_end "this is a test") None;
   Turn 0; Turn 0; Turn 0].

Definition session_running : fake_world :=
  fake_happen_all session_schedule session_started.

(** The same with an unprocessable block delivered first. *)
Definition session_broken : fake_world :=
  fake_happen_all (Block block_bad None :: session_schedule) session_started.

Definition thirty_words : str :=
  py ("one two three four five six seven. eight nine ten eleven twelve " ++
      "thirteen fourteen fifteen. sixteen seventeen eighteen nineteen " ++
      "twenty twentyone twentytwo. twentythree twentyfour twentyfive " ++
      "twentysix twentyseven twentyeight twentynine thirty.").


(** A thread of the stand-in recogniser that has just entered [run]. *)
Definition fake_thread : @AudioProcessingThread fake_vosk :=
  QThread_start (AudioProcessingThread_init model).

Definition fake_run_steps (n : nat) (q : list bytes)
  : list bytes * @AudioProcessingThread fake_vosk * list signal :=
  @run_steps fake_sumy fake_vosk fake_json n q fake_thread.


(** ** Sequences of commands

    What the user and the environment do, in order: a click on the start
    or the stop button, or an event of a schedule.  A click runs the slot
    to its end; when [stop_recording] has returned the thread of the
    application is back in its event loop and runs the calls of slots
    that were queued meanwhile.  An exception that leaves a slot or the
    [run] of a thread is not caught anywhere: the toolkit ends the
    program there, and no later command has any effect.
    [stop_recording] is given the two turns its wait can need. *)
Inductive command :=
  | Start
  | Stop
  | Happen (ev : event).

Section Commands.
Context `{!Sumy, !Vosk, !Json}.

Definition run_command (w : world) (c : command) : world :=
  match c with
  | Start => fst (start_recording w)
  | Stop => match stop_recording 2 w with
            | Some (w', None) => run_slots (drop (length (emitted w)) (emitted w')) w'
            | Some (w', Some _) => w'
            | None => w
            end
  | Happen ev => happen w ev
  end.

(** Whether the command ends in an uncaught exception: one raised by the
    slot of a click, or one that leaves [run] at the turn of a thread. *)
Definition raises (w : world) (c : command) : bool :=
  match c with
  | Start => match snd (start_recording w) with Some _ => true | None => false end
  | Stop => match stop_recording 2 w with
            | Some (_, Some _) => true
            | _ => false
            end
  | Happen (Turn tid) =>
      isRunning tid w &&
      match running_at tid (thread_step tid w) with
      | Some (Raised _) => true
      | _ => false
      end
  | Happen (Block _ _) => false
  end.

Fixpoint run_commands (cmds : list command) (w : world) : world :=
  match cmds with
  | [] => w
  | c :: rest =>
      if raises w c then run_command w c
      else run_commands rest (run_command w c)
  end.

(** The signals a worker has emitted since it entered [run] are in
    sequence when they are transcriptions followed, if and only if the
    worker has returned from [run], by one summary: that of its
    transcription. *)
Definition in_sequence (t : AudioProcessingThread) (sigs : list signal) : Prop :=
  exists ts,
    (running t <> Finished /\ sigs = map transcription_signal ts) \/
    (running t = Finished /\
     sigs = map transcription_signal ts ++
            [summary_signal (generate_summary (transcription t))]).

(** The flags printed by the blocks of a schedule, in order. *)
Definition flags_of (evs : list event) : list str :=
  omap (fun ev => match ev with Block _ status => status | Turn _ => None end) evs.

End Commands.

(** ** Translation of the summary

    [deep_translator.GoogleTranslator(source, target).translate(text)] is
    an interface that returns the translation or raises. *)
Class Translator := {
  GoogleTranslator_translate : str -> str -> str -> exn + str;
}.

Inductive translator_call :=
  | GoogleTranslator_call (source target text : str).

(** [text.split(sep)] for a separator of one character: the pieces
    between its occurrences, empty pieces included; [piece] is the piece
    being read, reversed. *)
Fixpoint split_sep_from (sep : char) (piece : str) (text : str) : list str :=
  match text with
  | [] => [rev piece]
  | c :: rest =>
      if (c =? sep)%N then rev piece :: split_sep_from sep [] rest
      else split_sep_from sep (c :: piece) rest
  end.

Definition split_sep (sep : char) (text : str) : list str :=
  split_sep_from sep [] text.

(** The entries [initUI] adds to [language_selector]. *)
Definition language_items : list str :=
  [py "hi (Hindi)"; py "kn (Kannada)"; py "es (Spanish)"; py "fr (French)";
   py "de (German)"].

(** The widgets [translate_summary] uses besides the summary pane: the
    index selected in [language_selector] and the text of
    [translation_output]. *)
Record translation_panel := Panel {
  language_index : nat;
  translation_output : str;
}.

(** [language_selector.currentText()]: the selected entry, or the empty
    string when the index selects none. *)
Definition currentText (p : translation_panel) : str :=
  match language_items !! language_index p with
  | Some item => item
  | None => []
  end.

Definition IndexError : exn := Exn "IndexError" "list index out of range".

Section Translation.
Context `{!Translator}.

(** [MeetingSummarizerApp.translate_summary]: yields the panel, the calls
    made to the translator and the exception raised, if any. *)
Definition translate_summary (a : MeetingSummarizerApp) (p : translation_panel)
  : translation_panel * list translator_call * option exn :=
  let summary_text := summary_output a in
  match split_sep 32 (currentText p) with
  | [] => (p, [], Some IndexError)
  | target_lang :: _ =>
      match summary_text with
      | [] => (p, [], None)
      | _ =>
          match GoogleTranslator_translate (py "auto") target_lang summary_text with
          | inl e =>
              (p, [GoogleTranslator_call (py "auto") target_lang summary_text], Some e)
          | inr translated_text =>
              (Panel (language_index p) translated_text,
               [GoogleTranslator_call (py "auto") target_lang summary_text], None)
          end
      end
  end.

End Translation.

(** A [json.loads] that rejects every text. *)
Definition fake_json_failing : Json := {|
  json_loads := fun js => inl (Exn "JSONDecodeError" "Expecting value");
|}.

(** The language codes at the head of the entries of [language_items]. *)
Definition language_codes : list str :=
  [py "hi"; py "kn"; py "es"; py "fr"; py "de"].

(** A translator that answers with the target language and the text. *)
Definition fake_translator : Translator := {|
  GoogleTranslator_translate := fun source target text =>
    inr (target ++ py ": " ++ text);
|}.

Definition fake_run_commands : list command -> fake_world -> fake_world :=
  @run_commands fake_sumy fake_vosk fake_json.

(** Recording started twice in a row. *)
Definition session_doubled : fake_world :=
  fake_run_commands [Start; Start] (@world_init fake_vosk true).

(** * Properties *)

(** ** The summariser *)

Example split_examples :
  split (py "  the quick	brown fox ") = [py "the"; py "quick"; py "brown"; py "fox"] /\
  split (py "") = [] /\
  split (py "   ") = [] /\
  split [104; 105; 160; 8232; 104; 111]%N = [py "hi"; py "ho"].
Proof. repeat split. Qed.


Section SummarizerFacts.
Context `{!Sumy}.

Lemma generate_summary_run_cases (text : str) :
  (length (split text) < 10 /\ generate_summary_run text = (not_enough, []))
  \/ (10 <= length (split text) /\
      generate_summary_run text =
        (py "Summary: " ++
           join (py " ") (map sentence_str (LsaSummarizer (parser_document text) 2)),
         [PlaintextParser_from_string text; LsaSummarizer_call 2])).
Proof.
  unfold generate_summary_run.
  destruct (Nat.ltb_spec (length (split text)) 10) as [Hlt | Hge]; [left | right]; auto.
Qed.

(** C4: a text of fewer than ten words is answered with the fixed
    sentence "Summary: Not enough data for summarization." and no call
    into the extractive summariser is made, whatever the text holds. *)
Theorem generate_summary_short (text : str) :
  length (split text) < 10 ->
  generate_summary_run text =
    (py "Summary: Not enough data for summarization.", []).
Proof.
  intros Hshort.
  destruct (generate_summary_run_cases text) as [[_ Heq] | [Hge _]]; [exact Heq | lia].
Qed.


(** C9: on both branches the returned string begins with "Summary: ". *)
Theorem generate_summary_prefix (text : str) :
  py "Summary: " `prefix_of` generate_summary text.
Proof.
  unfold generate_summary.
  destruct (generate_summary_run_cases text) as [[_ Heq] | [_ Heq]]; rewrite Heq; simpl fst.
  - exists (py "Not enough data for summarization."). reflexivity.
  - eexists. reflexivity.
Qed.

End SummarizerFacts.

Lemma generate_summary_short_witness :
  length (split (py "the quick brown fox")) < 10 /\
  @generate_summary_run fake_sumy (py "the quick brown fox") =
    (py "Summary: Not enough data for summarization.", []).
Proof.
  assert (Hshort : length (split (py "the quick brown fox")) < 10)
    by (vm_compute; lia).
  split; [exact Hshort |].
  exact (@generate_summary_short fake_sumy (py "the quick brown fox") Hshort).
Defined.



(** ** The worker's loop *)

Section WorkerFacts.
Context `{!Sumy, !Vosk, !Json}.

Lemma run_step_ended (q : list bytes) (t : AudioProcessingThread) :
  running t <> Running -> run_step q t = (q, t, []).
Proof.
  intros Hended. unfold run_step.
  destruct (running t); [reflexivity | congruence | reflexivity | reflexivity].
Qed.

Lemma run_steps_succ (n : nat) (q : list bytes) (t : AudioProcessingThread) :
  run_steps (S n) q t =
    let '(q1, t1, s1) := run_step q t in
    let '(q2, t2, s2) := run_steps n q1 t1 in
    (q2, t2, s1 ++ s2).
Proof. reflexivity. Qed.

Lemma run_steps_ended (n : nat) (q : list bytes) (t : AudioProcessingThread) :
  running t <> Running -> run_steps n q t = (q, t, []).
Proof.
  intros Hended. induction n as [| n IH]; simpl; [reflexivity |].
  rewrite run_step_ended by exact Hended. rewrite IH. reflexivity.
Qed.

Lemma run_step_idle (t : AudioProcessingThread) :
  running t = Running -> recording t = true -> run_step [] t = ([], t, []).
Proof. intros Hrun Hrec. unfold run_step. rewrite Hrun, Hrec. reflexivity. Qed.

Lemma run_step_flag_clear (q : list bytes) (t : AudioProcessingThread) :
  running t = Running -> recording t = false ->
  run_step q t =
    (q, set_running Finished t,
     [summary_signal (generate_summary (transcription t))]).
Proof. intros Hrun Hrec. unfold run_step. rewrite Hrun, Hrec. reflexivity. Qed.

Lemma run_step_raise (q : list bytes) (data : bytes)
    (t : AudioProcessingThread) (e : exn) :
  running t = Running -> recording t = true ->
  AcceptWaveform (recognizer t) data = inl e ->
  run_step (data :: q) t = (q, set_running (Raised e) t, []).
Proof.
  intros Hrun Hrec Hacc. unfold run_step. rewrite Hrun, Hrec, Hacc. reflexivity.
Qed.

(** One block taken from the queue by a recording thread: the thread
    either goes on, having appended the segments the decoder finalised on
    that block, or has ended on an exception, and then the decoder
    finalises nothing from that block on. *)
Lemma run_step_pop (q : list bytes) (data : bytes) (t : AudioProcessingThread) :
  running t = Running -> recording t = true ->
  exists t1 segs,
    run_step (data :: q) t = (q, t1, notifications (transcription t) segs) /\
    transcription t1 = transcription t ++ transcript_of segs /\
    recording t1 = true /\
    ((running t1 = Running /\
      forall fs, segments (recognizer t) (data :: fs) =
                 segs ++ segments (recognizer t1) fs)
     \/ (running t1 <> Running /\ segs = [] /\
         forall fs, segments (recognizer t) (data :: fs) = [])).
Proof.
  intros Hrun Hrec. unfold run_step. rewrite Hrun, Hrec.
  destruct (AcceptWaveform (recognizer t) data) as [e | [[|] r]] eqn:Hacc.
  - exists (set_running (Raised e) t), []. simpl.
    rewrite app_nil_r. repeat split; auto.
    right. repeat split; [discriminate | intros fs; rewrite Hacc; reflexivity].
  - destruct (Result r) as [js r'] eqn:Hres.
    destruct (json_loads js) as [e | result] eqn:Hjson.
    + exists (set_running (Raised e) (set_recognizer r' t)), []. simpl.
      rewrite app_nil_r. repeat split; auto.
      right. repeat split; [discriminate |].
      intros fs. rewrite Hacc, Hres, Hjson. reflexivity.
    + exists (set_transcription (transcription t ++ dict_get result (py "text") [] ++ py " ")
                (set_recognizer r' t)), [dict_get result (py "text") []].
      simpl. unfold transcript_of. simpl. rewrite app_nil_r.
      repeat split; auto.
      left. split; [exact Hrun |].
      intros fs. rewrite Hacc, Hres, Hjson. reflexivity.
  - exists (set_recognizer r t), []. simpl.
    rewrite app_nil_r. repeat split; auto.
    left. split; [exact Hrun |].
    intros fs. rewrite Hacc. reflexivity.
Qed.

Lemma notifications_length (acc : str) (segs : list str) :
  length (notifications acc segs) = length segs.
Proof.
  revert acc. induction segs as [| s segs IH]; intros acc; simpl; [| rewrite IH]; reflexivity.
Qed.

Lemma notifications_app (acc : str) (xs ys : list str) :
  notifications acc (xs ++ ys) =
  notifications acc xs ++ notifications (acc ++ transcript_of xs) ys.
Proof.
  revert acc. induction xs as [| x xs IH]; intros acc; simpl.
  - unfold transcript_of. simpl. rewrite app_nil_r. reflexivity.
  - rewrite IH. unfold transcript_of. simpl.
    rewrite <- !app_assoc. reflexivity.
Qed.

Lemma transcript_of_app (xs ys : list str) :
  transcript_of (xs ++ ys) = transcript_of xs ++ transcript_of ys.
Proof. unfold transcript_of. rewrite map_app, concat_app. reflexivity. Qed.

(** C10: when [AcceptWaveform] reports an utterance whose result carries
    the empty text (or no text member), the transcription still grows by
    exactly one space and the transcription signal is still emitted. *)
Theorem empty_segment_still_appended (q : list bytes) (data : bytes)
    (t : AudioProcessingThread) (r r' : KaldiRecognizer) (js : str)
    (result : gmap str str) :
  running t = Running -> recording t = true ->
  AcceptWaveform (recognizer t) data = inr (true, r) ->
  Result r = (js, r') ->
  json_loads js = inr result ->
  dict_get result (py "text") [] = [] ->
  run_step (data :: q) t =
    (q, set_transcription (transcription t ++ py " ") (set_recognizer r' t),
     [transcription_signal (transcription t ++ py " ")]).
Proof.
  intros Hrun Hrec Hacc Hres Hjson Htext.
  unfold run_step. rewrite Hrun, Hrec, Hacc, Hres, Hjson, Htext. reflexivity.
Qed.

(** C3, as the code has it: an exception raised by [AcceptWaveform] on a
    block is not caught.  The block is consumed, the exception leaves
    [run] and ends the thread with its transcription as it was; however
    many turns follow, the blocks behind it stay in the queue and no
    signal, transcription or summary, is emitted. *)
Theorem decode_error_ends_worker (n : nat) (q : list bytes) (data : bytes)
    (t : AudioProcessingThread) (e : exn) :
  running t = Running -> recording t = true ->
  AcceptWaveform (recognizer t) data = inl e ->
  run_steps (S n) (data :: q) t = (q, set_running (Raised e) t, []).
Proof.
  intros Hrun Hrec Hacc. simpl.
  rewrite (run_step_raise q data t e Hrun Hrec Hacc).
  rewrite run_steps_ended by discriminate. reflexivity.
Qed.

End WorkerFacts.

Lemma empty_segment_still_appended_witness :
  @run_step fake_sumy fake_vosk fake_json [block_end ""; block_end ""] fake_thread =
    ([block_end ""],
     set_transcription (py " ") (set_recognizer ([] : @KaldiRecognizer fake_vosk) fake_thread),
     [transcription_signal (py " ")]).
Proof.
  apply (@empty_segment_still_appended fake_sumy fake_vosk fake_json
           [block_end ""] (block_end "") fake_thread [] [] [] {[ py "text" := [] ]});
    vm_compute; reflexivity.
Defined.

(** Two silent utterances in a row leave two consecutive spaces and two
    notifications. *)
Example two_empty_segments :
  fake_run_steps 2 [block_end ""; block_end ""] =
    ([], set_transcription (py "  ") fake_thread,
     [transcription_signal (py " "); transcription_signal (py "  ")]).
Proof. vm_compute. reflexivity. Qed.

Lemma decode_error_ends_worker_witness :
  fake_run_steps 3 [block_bad; block_end "hello"] =
    ([block_end "hello"], set_running (Raised waveform_failure) fake_thread, []).
Proof.
  apply (@decode_error_ends_worker fake_sumy fake_vosk fake_json 2
           [block_end "hello"] block_bad fake_thread waveform_failure);
    vm_compute; reflexivity.
Defined.

(** C3 fails as stated: after a block the recogniser cannot process, the
    thread has left [run] on the exception and the utterance carried by
    the next block never reaches the transcription, although the same
    block alone is transcribed. *)
Lemma decode_error_counterexample :
  running (snd (fst (fake_run_steps 1 [block_bad; block_end "hello"]))) =
    Raised waveform_failure /\
  ~ (exists n,
       transcription (snd (fst (fake_run_steps n [block_bad; block_end "hello"]))) =
         py "hello ") /\
  transcription (snd (fst (fake_run_steps 1 [block_end "hello"]))) = py "hello ".
Proof.
  split; [vm_compute; reflexivity |].
  split; [| vm_compute; reflexivity].
  intros [n Hn]. destruct n as [| n].
  - vm_compute in Hn. discriminate Hn.
  - unfold fake_run_steps in Hn. rewrite run_steps_succ in Hn.
    rewrite (@run_step_raise fake_sumy fake_vosk fake_json
               [block_end "hello"] block_bad fake_thread waveform_failure) in Hn
      by (vm_compute; reflexivity).
    rewrite run_steps_ended in Hn by discriminate.
    vm_compute in Hn. discriminate Hn.
Qed.

(** ** The world: signals, turns and schedules *)

Section SessionFacts.
Context `{!Sumy, !Vosk, !Json}.

Lemma emit_all_frame (tid : nat) (sigs : list signal) (w : world) :
  let w' := foldl (emit tid) w sigs in
  audio_queue w' = audio_queue w /\ stderr w' = stderr w /\
  microphone w' = microphone w /\ streams w' = streams w /\
  threads w' = threads w /\
  stream (app w') = stream (app w) /\
  audio_thread (app w') = audio_thread (app w) /\
  emitted w' = emitted w ++ map (pair tid) sigs.
Proof.
  revert w. induction sigs as [| s sigs IH]; intros w; simpl.
  - rewrite app_nil_r. repeat split.
  - destruct (IH (emit tid w s)) as (Hq & He & Hm & Hs & Ht & Hst & Hat & Hem).
    rewrite Hq, He, Hm, Hs, Ht, Hst, Hat, Hem.
    destruct s; simpl; rewrite <- app_assoc; repeat split.
Qed.

Lemma sent_by_same (tid : nat) (sigs : list signal) :
  omap (fun p : nat * signal => if Nat.eqb (fst p) tid then Some (snd p) else None)
       (map (pair tid) sigs) = sigs.
Proof.
  induction sigs as [| s sigs IH]; simpl; [reflexivity |].
  rewrite Nat.eqb_refl. simpl. f_equal. exact IH.
Qed.

Lemma sent_by_other (tid tid' : nat) (sigs : list signal) :
  tid' <> tid ->
  omap (fun p : nat * signal => if Nat.eqb (fst p) tid then Some (snd p) else None)
       (map (pair tid') sigs) = [].
Proof.
  intros Hne. induction sigs as [| s sigs IH]; simpl; [reflexivity |].
  destruct (Nat.eqb_spec tid' tid) as [Heq | _]; [contradiction | exact IH].
Qed.

(** What one turn of a thread does to the world. *)
Lemma thread_step_frame (tid : nat) (w : world) (t t1 : AudioProcessingThread)
    (q : list bytes) (sigs : list signal) :
  threads w !! tid = Some t ->
  run_step (audio_queue w) t = (q, t1, sigs) ->
  let w' := thread_step tid w in
  audio_queue w' = q /\ stderr w' = stderr w /\
  microphone w' = microphone w /\ streams w' = streams w /\
  threads w' = <[tid := t1]> (threads w) /\
  stream (app w') = stream (app w) /\
  audio_thread (app w') = audio_thread (app w) /\
  emitted w' = emitted w ++ map (pair tid) sigs.
Proof.
  intros Hlook Hstep. unfold thread_step. rewrite Hlook, Hstep.
  exact (emit_all_frame tid sigs
           (set_threads (<[tid := t1]> (threads w)) (set_audio_queue q w))).
Qed.

Lemma thread_step_absent (tid : nat) (w : world) :
  threads w !! tid = None -> thread_step tid w = w.
Proof. intros Hnone. unfold thread_step. rewrite Hnone. reflexivity. Qed.

Lemma post_all_frame (tid : nat) (sigs : list signal) (w : world) :
  let w' := foldl (post tid) w sigs in
  audio_queue w' = audio_queue w /\ stderr w' = stderr w /\
  microphone w' = microphone w /\ streams w' = streams w /\
  threads w' = threads w /\
  app w' = app w /\
  emitted w' = emitted w ++ map (pair tid) sigs.
Proof.
  revert w. induction sigs as [| s sigs IH]; intros w; simpl.
  - rewrite app_nil_r. repeat split.
  - destruct (IH (post tid w s)) as (Hq & He & Hm & Hs & Ht & Ha & Hem).
    rewrite Hq, He, Hm, Hs, Ht, Ha, Hem. simpl. rewrite <- app_assoc. repeat split.
Qed.

(** What one turn of a thread does to the world while the thread of the
    application is blocked: the same as otherwise, but for the panes. *)
Lemma thread_step_blocked_frame (tid : nat) (w : world) (t t1 : AudioProcessingThread)
    (q : list bytes) (sigs : list signal) :
  threads w !! tid = Some t ->
  run_step (audio_queue w) t = (q, t1, sigs) ->
  let w' := thread_step_blocked tid w in
  audio_queue w' = q /\ stderr w' = stderr w /\
  microphone w' = microphone w /\ streams w' = streams w /\
  threads w' = <[tid := t1]> (threads w) /\
  app w' = app w /\
  emitted w' = emitted w ++ map (pair tid) sigs.
Proof.
  intros Hlook Hstep. unfold thread_step_blocked. rewrite Hlook, Hstep.
  exact (post_all_frame tid sigs
           (set_threads (<[tid := t1]> (threads w)) (set_audio_queue q w))).
Qed.

Lemma thread_step_blocked_absent (tid : nat) (w : world) :
  threads w !! tid = None -> thread_step_blocked tid w = w.
Proof. intros Hnone. unfold thread_step_blocked. rewrite Hnone. reflexivity. Qed.

Lemma emitted_by_app (tid tid' : nat) (w w' : world) (sigs : list signal) :
  emitted w' = emitted w ++ map (pair tid') sigs ->
  emitted_by tid w' =
    emitted_by tid w ++ (if Nat.eqb tid' tid then sigs else []).
Proof.
  intros Hem. unfold emitted_by. rewrite Hem, omap_app.
  destruct (Nat.eqb_spec tid' tid) as [-> | Hne].
  - rewrite sent_by_same. reflexivity.
  - rewrite sent_by_other by exact Hne. reflexivity.
Qed.

Lemma emitted_by_same_log (tid : nat) (w w' : world) :
  emitted w' = emitted w -> emitted_by tid w' = emitted_by tid w.
Proof. intros Hem. unfold emitted_by. rewrite Hem. reflexivity. Qed.

Lemma only_consumer_cons (tid : nat) (ev : event) (evs : list event) :
  only_consumer tid (ev :: evs) = true ->
  match ev with Turn tid' => tid' = tid | Block _ _ => True end /\
  only_consumer tid evs = true.
Proof.
  unfold only_consumer. simpl. intros Hall.
  apply andb_prop in Hall as [Hev Hrest]. split; [| exact Hrest].
  destruct ev as [indata status | tid']; [exact I |].
  apply Nat.eqb_eq. exact Hev.
Qed.

(** A thread that has left [run] stays as it is and emits nothing, and
    with no other consumer the queue only grows. *)
Lemma ended_thread_inert (tid : nat) (evs : list event) (w : world)
    (t : AudioProcessingThread) :
  threads w !! tid = Some t -> running t <> Running ->
  only_consumer tid evs = true ->
  let w' := happen_all evs w in
  threads w' !! tid = Some t /\
  audio_queue w' = audio_queue w ++ blocks_of evs /\
  emitted_by tid w' = emitted_by tid w.
Proof.
  revert w. induction evs as [| ev evs IH]; intros w Hlook Hended Honly; simpl.
  - rewrite app_nil_r. auto.
  - apply only_consumer_cons in Honly as [Hev Hrest].
    destruct ev as [indata status | tid'].
    + destruct (IH (callback indata status w)) as (Ht & Hq & He); auto.
      { destruct status; exact Hlook. }
      unfold happen_all in *. simpl. rewrite Ht, Hq, He.
      split; [reflexivity |]. split.
      * destruct status; simpl; rewrite <- app_assoc; reflexivity.
      * destruct status; reflexivity.
    + subst tid'.
      pose proof (thread_step_frame tid w t t (audio_queue w) [] Hlook
                    (run_step_ended _ _ Hended)) as (Hq1 & _ & _ & _ & Ht1 & _ & _ & He1).
      destruct (IH (thread_step tid w)) as (Ht & Hq & He); auto.
      { rewrite Ht1. rewrite list_lookup_insert_eq; [reflexivity |].
        eapply lookup_lt_Some; exact Hlook. }
      unfold happen_all in *. simpl. rewrite Ht, Hq, He, Hq1.
      split; [reflexivity |]. split; [reflexivity |].
      rewrite (emitted_by_app tid tid w (thread_step tid w) [] He1).
      rewrite Nat.eqb_refl, app_nil_r. reflexivity.
Qed.

Lemma callback_frame (indata : bytes) (status : option str) (w : world) :
  let w' := callback indata status w in
  audio_queue w' = audio_queue w ++ [indata] /\
  microphone w' = microphone w /\ streams w' = streams w /\
  threads w' = threads w /\ emitted w' = emitted w /\ app w' = app w.
Proof. destruct status; repeat split. Qed.

(** One block taken from the queue by a recording thread, and what it
    means for the count of blocks the decoder gets through. *)
Lemma run_step_take (q : list bytes) (data : bytes) (t : AudioProcessingThread) :
  running t = Running -> recording t = true ->
  exists t1 segs,
    run_step (data :: q) t = (q, t1, notifications (transcription t) segs) /\
    transcription t1 = transcription t ++ transcript_of segs /\
    recording t1 = true /\
    ((running t1 = Running /\
      forall fs, segments (recognizer t) (data :: fs) =
                 segs ++ segments (recognizer t1) fs /\
                 consumable (recognizer t) (data :: fs) =
                 S (consumable (recognizer t1) fs))
     \/ (running t1 <> Running /\ segs = [] /\
         forall fs, segments (recognizer t) (data :: fs) = [] /\
                    consumable (recognizer t) (data :: fs) = 1)).
Proof.
  intros Hrun Hrec. unfold run_step. rewrite Hrun, Hrec.
  destruct (AcceptWaveform (recognizer t) data) as [e | [[|] r]] eqn:Hacc.
  - exists (set_running (Raised e) t), []. simpl.
    rewrite app_nil_r. repeat split; auto.
    right. repeat split; try discriminate; simpl; rewrite Hacc; reflexivity.
  - destruct (Result r) as [js r'] eqn:Hres.
    destruct (json_loads js) as [e | result] eqn:Hjson.
    + exists (set_running (Raised e) (set_recognizer r' t)), []. simpl.
      rewrite app_nil_r. repeat split; auto.
      right. repeat split; try discriminate; simpl; rewrite Hacc, Hres, Hjson; reflexivity.
    + exists (set_transcription (transcription t ++ dict_get result (py "text") [] ++ py " ")
                (set_recognizer r' t)), [dict_get result (py "text") []].
      simpl. unfold transcript_of. simpl. rewrite app_nil_r.
      repeat split; auto.
      left. split; [exact Hrun |].
      intros fs. rewrite Hacc, Hres, Hjson. split; reflexivity.
  - exists (set_recognizer r t), []. simpl.
    rewrite app_nil_r. repeat split; auto.
    left. split; [exact Hrun |].
    intros fs. rewrite Hacc. split; reflexivity.
Qed.

(** What a recording worker that is the only consumer has done after a
    schedule: it has taken from the queue exactly the blocks its turns
    could take, up to the first block that ended it. *)
Lemma worker_consumes (tid : nat) (evs : list event) (w : world)
    (t : AudioProcessingThread) :
  threads w !! tid = Some t -> running t = Running -> recording t = true ->
  only_consumer tid evs = true ->
  transcription_at tid (happen_all evs w) =
    Some (transcription t ++
          transcript_of
            (segments (recognizer t)
               (take (Nat.min (taken (length (audio_queue w)) evs)
                        (consumable (recognizer t) (audio_queue w ++ blocks_of evs)))
                  (audio_queue w ++ blocks_of evs)))) /\
  audio_queue (happen_all evs w) =
    drop (Nat.min (taken (length (audio_queue w)) evs)
            (consumable (recognizer t) (audio_queue w ++ blocks_of evs)))
      (audio_queue w ++ blocks_of evs) /\
  emitted_by tid (happen_all evs w) =
    emitted_by tid w ++
    notifications (transcription t)
      (segments (recognizer t)
         (take (Nat.min (taken (length (audio_queue w)) evs)
                  (consumable (recognizer t) (audio_queue w ++ blocks_of evs)))
            (audio_queue w ++ blocks_of evs))).
Proof.
  intros Hlook Hrun Hrec Honly.
  revert w t Hlook Hrun Hrec Honly.
  induction evs as [| ev evs IH]; intros w t Hlook Hrun Hrec Honly.
  - unfold transcription_at. simpl. rewrite Hlook. unfold transcript_of. simpl.
    rewrite !app_nil_r. auto.
  - apply only_consumer_cons in Honly as [Hev Hrest].
    destruct ev as [indata status | tid'].
    + destruct (callback_frame indata status w) as (Hq & _ & _ & Ht & He & _).
      destruct (IH (callback indata status w) t) as (Hk1 & Hk2 & Hk3);
        [rewrite Ht; exact Hlook | exact Hrun | exact Hrec | exact Hrest |].
      change (happen_all (Block indata status :: evs) w)
        with (happen_all evs (callback indata status w)).
      change (blocks_of (Block indata status :: evs)) with (indata :: blocks_of evs).
      change (taken (length (audio_queue w)) (Block indata status :: evs))
        with (taken (S (length (audio_queue w))) evs).
      rewrite Hq, <- app_assoc, length_app, Nat.add_1_r in Hk1, Hk2, Hk3.
      simpl app in Hk1, Hk2, Hk3.
      rewrite (emitted_by_same_log tid _ _ He) in Hk3.
      auto.
    + subst tid'.
      change (happen_all (Turn tid :: evs) w) with (happen_all evs (thread_step tid w)).
      change (blocks_of (Turn tid :: evs)) with (blocks_of evs).
      destruct (audio_queue w) as [| data q'] eqn:Hqueue.
      * pose proof (thread_step_frame tid w t t [] [] Hlook) as Hframe.
        rewrite Hqueue in Hframe.
        destruct (Hframe (run_step_idle t Hrun Hrec)) as (Hq1 & _ & _ & _ & Ht1 & _ & _ & He1).
        destruct (IH (thread_step tid w) t) as (Hk1 & Hk2 & Hk3);
          [| exact Hrun | exact Hrec | exact Hrest |].
        { rewrite Ht1. rewrite list_lookup_insert_eq; [reflexivity |].
          eapply lookup_lt_Some; exact Hlook. }
        rewrite Hq1 in Hk1, Hk2, Hk3.
        rewrite (emitted_by_app tid tid w (thread_step tid w) [] He1) in Hk3.
        rewrite Nat.eqb_refl, app_nil_r in Hk3.
        change (taken (length []) (Turn tid :: evs)) with (taken 0 evs).
        auto.
      * destruct (run_step_take q' data t Hrun Hrec)
          as (t1 & segs & Hstep & Htr1 & Hrec1 & Hcont).
        pose proof (thread_step_frame tid w t t1 q'
                      (notifications (transcription t) segs) Hlook) as Hframe.
        rewrite Hqueue in Hframe.
        destruct (Hframe Hstep) as (Hq1 & _ & _ & _ & Ht1 & _ & _ & He1).
        assert (Hlook1 : threads (thread_step tid w) !! tid = Some t1).
        { rewrite Ht1. rewrite list_lookup_insert_eq; [reflexivity |].
          eapply lookup_lt_Some; exact Hlook. }
        pose proof (emitted_by_app tid tid w (thread_step tid w) _ He1) as Hem1.
        rewrite Nat.eqb_refl in Hem1.
        change (taken (length (data :: q')) (Turn tid :: evs))
          with (S (taken (length q') evs)).
        change ((data :: q') ++ blocks_of evs) with (data :: (q' ++ blocks_of evs)).
        destruct Hcont as [[Hrun1 Hsegs] | (Hend1 & -> & Hsegs)].
        -- destruct (IH (thread_step tid w) t1 Hlook1 Hrun1 Hrec1 Hrest)
             as (Hk1 & Hk2 & Hk3).
           rewrite Hq1 in Hk1, Hk2, Hk3.
           destruct (Hsegs (q' ++ blocks_of evs)) as [_ Hcount]. rewrite Hcount.
           change (Nat.min (S ?a) (S ?b)) with (S (Nat.min a b)).
           set (k := Nat.min (taken (length q') evs)
                       (consumable (recognizer t1) (q' ++ blocks_of evs))) in *.
           change (take (S k) (data :: (q' ++ blocks_of evs)))
             with (data :: take k (q' ++ blocks_of evs)).
           change (drop (S k) (data :: (q' ++ blocks_of evs)))
             with (drop k (q' ++ blocks_of evs)).
           destruct (Hsegs (take k (q' ++ blocks_of evs))) as [Hseg _]. rewrite Hseg.
           split; [| split; [exact Hk2 |]].
           ++ rewrite Hk1, Htr1, transcript_of_app, <- app_assoc. reflexivity.
           ++ rewrite Hk3, Hem1, Htr1, notifications_app, <- app_assoc. reflexivity.
        -- destruct (ended_thread_inert tid evs (thread_step tid w) t1 Hlook1 Hend1 Hrest)
             as (Hk1 & Hk2 & Hk4).
           destruct (Hsegs (q' ++ blocks_of evs)) as [_ Hcount]. rewrite Hcount.
           replace (Nat.min (S (taken (length q') evs)) 1) with 1 by lia.
           change (take 1 (data :: (q' ++ blocks_of evs))) with [data].
           change (drop 1 (data :: (q' ++ blocks_of evs))) with (q' ++ blocks_of evs).
           destruct (Hsegs []) as [Hseg _]. rewrite Hseg.
           unfold transcription_at. rewrite Hk1, Hk2, Hq1, Hk4, Hem1. simpl.
           rewrite Htr1. auto.
Qed.

(** C6: while one recording worker is the only consumer, whatever the
    interleaving of delivered blocks and turns of the worker, the worker
    has taken from the front of the queue exactly the blocks its turns
    could take (up to the first block that ended it), in order, and its
    transcription is the concatenation of the segments the decoder
    finalised on them, in production order, each followed by one space;
    one transcription signal was emitted per segment, carrying the
    transcription so far.  In particular, when those segments are
    "hello world" and "this is a test", the transcription is
    "hello world this is a test " and exactly two notifications were
    emitted. *)
Theorem transcript_is_concatenation (tid : nat) (evs : list event) (w : world)
    (t : AudioProcessingThread) :
  threads w !! tid = Some t -> running t = Running -> recording t = true ->
  only_consumer tid evs = true ->
  let delivered := audio_queue w ++ blocks_of evs in
  let k := Nat.min (taken (length (audio_queue w)) evs)
             (consumable (recognizer t) delivered) in
  let segs := segments (recognizer t) (take k delivered) in
  transcription_at tid (happen_all evs w) =
    Some (transcription t ++ transcript_of segs) /\
  audio_queue (happen_all evs w) = drop k delivered /\
  emitted_by tid (happen_all evs w) =
    emitted_by tid w ++ notifications (transcription t) segs /\
  length (notifications (transcription t) segs) = length segs /\
  (transcription t = [] ->
   segs = [py "hello world"; py "this is a test"] ->
   transcription_at tid (happen_all evs w) = Some (py "hello world this is a test ") /\
   exists first second,
     emitted_by tid (happen_all evs w) = emitted_by tid w ++ [first; second]).
Proof.
  intros Hlook Hrun Hrec Honly delivered k segs.
  destruct (worker_consumes tid evs w t Hlook Hrun Hrec Honly) as (Htr & Hq & Hem).
  fold delivered in Htr, Hq, Hem. fold k in Htr, Hq, Hem. fold segs in Htr, Hem.
  split; [exact Htr |]. split; [exact Hq |]. split; [exact Hem |].
  split; [apply notifications_length |].
  intros Hempty Hsegs. rewrite Htr, Hem, Hempty, Hsegs.
  split; [reflexivity |]. simpl. eauto.
Qed.

(** A thread that has left [run] stays as it is and emits nothing,
    whoever else takes turns. *)
Lemma ended_thread_silent (tid : nat) (evs : list event) (w : world)
    (t : AudioProcessingThread) :
  threads w !! tid = Some t -> running t <> Running ->
  threads (happen_all evs w) !! tid = Some t /\
  emitted_by tid (happen_all evs w) = emitted_by tid w.
Proof.
  revert w. induction evs as [| ev evs IH]; intros w Hlook Hended; [auto |].
  destruct ev as [indata status | tid'].
  - change (happen_all (Block indata status :: evs) w)
      with (happen_all evs (callback indata status w)).
    destruct (callback_frame indata status w) as (_ & _ & _ & Ht & He & _).
    destruct (IH (callback indata status w)) as (Hk1 & Hk2);
      [rewrite Ht; exact Hlook | exact Hended |].
    rewrite Hk1, Hk2. unfold emitted_by. rewrite He. auto.
  - change (happen_all (Turn tid' :: evs) w) with (happen_all evs (thread_step tid' w)).
    destruct (threads w !! tid') as [t2 |] eqn:Hlook2.
    + destruct (run_step (audio_queue w) t2) as [[q t2'] sigs] eqn:Hstep.
      destruct (thread_step_frame tid' w t2 t2' q sigs Hlook2 Hstep)
        as (_ & _ & _ & _ & Ht1 & _ & _ & He1).
      assert (Hlook1 : threads (thread_step tid' w) !! tid = Some t).
      { rewrite Ht1. destruct (decide (tid' = tid)) as [-> | Hne].
        - rewrite Hlook in Hlook2. injection Hlook2 as <-.
          rewrite run_step_ended in Hstep by exact Hended.
          injection Hstep as _ <- _.
          rewrite list_lookup_insert_eq; [reflexivity |].
          eapply lookup_lt_Some; exact Hlook.
        - rewrite list_lookup_insert_ne by exact Hne. exact Hlook. }
      destruct (IH (thread_step tid' w) Hlook1 Hended) as (Hk1 & Hk2).
      rewrite Hk1, Hk2.
      rewrite (emitted_by_app tid tid' w (thread_step tid' w) sigs He1).
      split; [reflexivity |].
      destruct (Nat.eqb_spec tid' tid) as [-> | Hne]; [| apply app_nil_r].
      rewrite Hlook in Hlook2. injection Hlook2 as <-.
      rewrite run_step_ended in Hstep by exact Hended.
      injection Hstep as _ _ <-. apply app_nil_r.
    + rewrite (thread_step_absent tid' w Hlook2). apply IH; assumption.
Qed.

(** [start_recording] when the microphone opens, on any world. *)
Lemma start_recording_opens (w : world) :
  microphone w = true ->
  start_recording w =
    (World (audio_queue w) (stderr w) (microphone w)
       (streams w ++ [Active])
       (threads w ++ [Thread model true Running (KaldiRecognizer_new model 16000) []])
       (emitted w)
       (App recording_banner (summary_output (app w))
          (Some (length (streams w))) (Some (length (threads w)))),
     None).
Proof.
  intros Hmic. destruct w as [q err mic ss ts em a]. simpl in Hmic. subst mic.
  unfold start_recording. simpl.
  rewrite insert_app_r_alt by reflexivity.
  rewrite alter_app_r_alt by reflexivity.
  rewrite !Nat.sub_diag. reflexivity.
Qed.

(** [stop_recording] on an application without a [stream] attribute. *)
Lemma stop_recording_no_stream (fuel : nat) (w : world) :
  stream (app w) = None ->
  stop_recording fuel w =
    Some (w, Some (AttributeError "MeetingSummarizerApp" "stream")).
Proof. intros Hnone. unfold stop_recording. rewrite Hnone. reflexivity. Qed.

(** C1, as the code has it: the program defines no NotRunningError, and
    [stop_recording] never fails with one, in whatever state it is
    called.  On an application whose [stream] attribute was never set (no
    [start_recording] has succeeded) the call ends, whatever its fuel,
    and the world is left exactly as it was: no stream is opened or
    closed, no worker started or stopped, nothing emitted. *)
Theorem stop_without_session (fuel : nat) (w : world) :
  (forall w' e, stop_recording fuel w = Some (w', Some e) ->
                exn_class e <> "NotRunningError"%string) /\
  (stream (app w) = None -> exists r, stop_recording fuel w = Some (w, r)).
Proof.
  split.
  - intros w' e. unfold stop_recording.
    destruct (stream (app w)) as [sid |]; [| intros [= _ <-]; discriminate].
    cbn zeta.
    repeat match goal with
           | |- context [match ?x with _ => _ end] => destruct x
           end; intros [=].
  - intros Hnone. eexists. exact (stop_recording_no_stream fuel w Hnone).
Qed.

(** C2, as the code has it: [start_recording] makes no test of a running
    session and raises nothing.  With the microphone available it opens
    and starts a second stream and a second worker whose transcription is
    empty, and points [self.stream] and [self.audio_thread] at them; the
    earlier stream stays active and the earlier worker as it was, and the
    transcription pane shows the banner. *)
Theorem start_while_running (w : world) (sid tid : nat) (t : AudioProcessingThread) :
  microphone w = true ->
  stream (app w) = Some sid -> streams w !! sid = Some Active ->
  audio_thread (app w) = Some tid -> threads w !! tid = Some t ->
  running t = Running ->
  exists w',
    start_recording w = (w', None) /\
    streams w' = streams w ++ [Active] /\
    streams w' !! sid = Some Active /\
    stream (app w') = Some (length (streams w)) /\
    threads w' =
      threads w ++ [Thread model true Running (KaldiRecognizer_new model 16000) []] /\
    threads w' !! tid = Some t /\
    audio_thread (app w') = Some (length (threads w)) /\
    transcription_output (app w') = recording_banner /\
    audio_queue w' = audio_queue w /\ emitted w' = emitted w.
Proof.
  intros Hmic Hstream Hsid Hthread Htid Hrun.
  eexists. split; [exact (start_recording_opens w Hmic) |]. simpl.
  split; [reflexivity |].
  split; [apply lookup_app_l_Some; exact Hsid |].
  split; [reflexivity |]. split; [reflexivity |].
  split; [apply lookup_app_l_Some; exact Htid |].
  repeat split.
Qed.

(** C7: once [stop_recording] has cleared the flag of the running worker,
    the worker's next test of the flag leaves the loop without touching
    the queue, the summary of the transcription as it stands is computed
    and emitted in exactly one summary signal, and the thread has
    returned from [run]: it emits nothing afterwards, and a following
    [start_recording] puts a fresh worker to work.  When
    [stop_recording] returns the call of the slot is still queued: the
    panes are as they were. *)
Theorem stop_emits_one_summary (fuel : nat) (w : world) (sid tid : nat)
    (t : AudioProcessingThread) :
  stream (app w) = Some sid -> audio_thread (app w) = Some tid ->
  threads w !! tid = Some t -> running t = Running ->
  exists w',
    stop_recording (S (S fuel)) w = Some (w', None) /\
    threads w' !! tid = Some (set_running Finished (set_recording false t)) /\
    isRunning tid w' = false /\
    audio_queue w' = audio_queue w /\
    emitted w' =
      emitted w ++ [(tid, summary_signal (generate_summary (transcription t)))] /\
    app w' = app w /\
    (forall evs, emitted_by tid (happen_all evs w') = emitted_by tid w') /\
    (microphone w = true ->
     exists w'',
       start_recording w' = (w'', None) /\
       audio_thread (app w'') = Some (length (threads w)) /\
       threads w'' !! length (threads w) =
         Some (Thread model true Running (KaldiRecognizer_new model 16000) [])).
Proof.
  intros Hstream Hthread Hlook Hrun.
  set (w3 := set_threads (alter AudioProcessingThread_stop tid (threads w))
               (set_streams (alter Stream_close sid (alter Stream_stop sid (streams w)))
                  (set_streams (alter Stream_stop sid (streams w)) w))).
  assert (Hlook3 : threads w3 !! tid = Some (set_recording false t)).
  { unfold w3. simpl. rewrite list_lookup_alter_eq, Hlook. reflexivity. }
  pose proof (thread_step_blocked_frame tid w3 (set_recording false t)
                (set_running Finished (set_recording false t)) (audio_queue w3)
                [summary_signal (generate_summary (transcription t))] Hlook3
                (run_step_flag_clear (audio_queue w3) (set_recording false t) Hrun eq_refl))
    as (Hq & _ & Hm & _ & Ht & Ha & He).
  assert (Hfin : threads (thread_step_blocked tid w3) !! tid =
                 Some (set_running Finished (set_recording false t))).
  { rewrite Ht. rewrite list_lookup_insert_eq; [reflexivity |].
    eapply lookup_lt_Some; exact Hlook3. }
  exists (thread_step_blocked tid w3).
  split.
  { unfold stop_recording. rewrite Hstream. simpl. rewrite Hthread.
    unfold isRunning at 1. simpl. rewrite Hlook, Hrun. simpl.
    fold w3. unfold isRunning. rewrite Hlook3, Hfin. simpl. rewrite Hrun.
    reflexivity. }
  split; [exact Hfin |].
  split; [unfold isRunning; rewrite Hfin; reflexivity |].
  split; [rewrite Hq; reflexivity |].
  split; [rewrite He; reflexivity |].
  split; [rewrite Ha; reflexivity |].
  split.
  { intros evs. apply (ended_thread_silent tid evs _ _ Hfin). discriminate. }
  intros Hmic. eexists.
  split; [apply start_recording_opens; rewrite Hm; exact Hmic |]. simpl.
  rewrite Ht, length_insert. unfold w3. simpl. rewrite length_alter.
  split; [reflexivity |].
  rewrite lookup_app_r by (rewrite length_insert, length_alter; reflexivity).
  rewrite length_insert, length_alter, Nat.sub_diag. reflexivity.
Qed.

End SessionFacts.

(** ** The sessions of the stand-in world *)

Lemma transcript_is_concatenation_witness :
  transcription_at 0 session_running = Some (py "hello world this is a test ") /\
  audio_queue session_running = [] /\
  emitted_by 0 session_running =
    [transcription_signal (py "hello world ");
     transcription_signal (py "hello world this is a test ")].
Proof.
  pose proof (@transcript_is_concatenation fake_sumy fake_vosk fake_json
                0 session_schedule session_started fake_thread
                eq_refl eq_refl eq_refl eq_refl) as (Htr & Hq & Hem & _).
  split; [exact Htr |]. split; [exact Hq | exact Hem].
Defined.

(** Three blocks, two utterances: the transcription, and the two
    notifications that carried it. *)
Example scenario_two_utterances :
  transcription_at 0 session_running =
    Some (py "hello world this is a test ") /\
  emitted session_running =
    [(0, transcription_signal (py "hello world "));
     (0, transcription_signal (py "hello world this is a test "))] /\
  transcription_output (app session_running) = py "hello world this is a test ".
Proof. vm_compute. repeat split. Qed.

Lemma stop_emits_one_summary_witness :
  exists w',
    fake_stop 2 session_running = Some (w', None) /\
    isRunning 0 w' = false /\
    emitted w' =
      emitted session_running ++
      [(0, summary_signal
             (@generate_summary fake_sumy (py "hello world this is a test ")))].
Proof.
  destruct (@stop_emits_one_summary fake_sumy fake_vosk fake_json 0 session_running 0 0
              (set_transcription (py "hello world this is a test ") fake_thread))
    as (w' & Hstop & _ & Hidle & _ & Hem & _).
  - reflexivity.
  - reflexivity.
  - vm_compute. reflexivity.
  - reflexivity.
  - exists w'. split; [exact Hstop |]. split; [exact Hidle | exact Hem].
Defined.

(** A transcript of seven words: stopping emits the fixed sentence in the
    only summary signal and closes the stream; the summary pane is still
    empty when [stop_recording] returns and shows the sentence once the
    queued slot has run. *)
Example scenario_stop_short_transcript :
  match fake_stop 2 session_running with
  | Some (w', None) =>
      summary_output (app w') = [] /\
      filter (fun s => is_summary s = true) (emitted_by 0 w') =
        [summary_signal (py "Summary: Not enough data for summarization.")] /\
      streams w' = [Closed]
  | _ => False
  end /\
  summary_output (app (fake_run_commands [Stop] session_running)) =
    py "Summary: Not enough data for summarization.".
Proof. vm_compute. repeat split. Qed.

Lemma stop_without_session_witness :
  (forall w' e, fake_stop 2 (world_init true) = Some (w', Some e) ->
                exn_class e <> "NotRunningError"%string) /\
  exists r, fake_stop 2 (world_init true) = Some (world_init true, r).
Proof.
  destruct (@stop_without_session fake_sumy fake_vosk fake_json 2 (world_init true))
    as [Hclass Hsame].
  split; [exact Hclass | exact (Hsame eq_refl)].
Defined.

(** C1 fails as stated: [stop_recording] on a freshly built application
    does not fail with a NotRunningError, whatever the fuel. *)
Lemma stop_without_start_counterexample :
  ~ (exists fuel w' e,
       fake_stop fuel (world_init true) = Some (w', Some e) /\
       exn_class e = "NotRunningError"%string).
Proof.
  intros (fuel & w' & e & Hstop & Hclass).
  unfold fake_stop, stop_recording in Hstop. simpl in Hstop.
  injection Hstop as _ <-. discriminate Hclass.
Qed.

(** Once a session has been started and stopped, a further
    [stop_recording] raises nothing and changes nothing. *)
Example stop_after_stop_is_silent :
  match fake_stop 2 session_running with
  | Some (w', None) => fake_stop 2 w' = Some (w', None)
  | _ => False
  end.
Proof. vm_compute. reflexivity. Qed.

Lemma start_while_running_witness :
  exists w',
    fake_start session_running = (w', None) /\
    streams w' = [Active; Active] /\
    stream (app w') = Some 1 /\
    threads w' !! 0 =
      Some (set_transcription (py "hello world this is a test ") fake_thread) /\
    threads w' !! 1 = Some fake_thread /\
    audio_thread (app w') = Some 1 /\
    transcription_output (app w') = recording_banner.
Proof.
  destruct (@start_while_running fake_vosk session_running 0 0
              (set_transcription (py "hello world this is a test ") fake_thread))
    as (w' & Hstart & Hstreams & _ & Hstream & Hthreads & Hold & Hthread & Hpane & _).
  - reflexivity.
  - reflexivity.
  - reflexivity.
  - reflexivity.
  - vm_compute. reflexivity.
  - reflexivity.
  - exists w'. rewrite Hthreads in *. rewrite Hstreams.
    repeat split; try assumption.
Defined.

(** C2 fails as stated: with a session running and two utterances
    transcribed, [start_recording] returns normally, two streams are then
    open and two workers running, the worker the application now refers
    to has an empty transcription and the pane has lost the transcript. *)
Lemma start_while_running_counterexample :
  isRunning 0 session_running = true /\
  transcription_output (app session_running) = py "hello world this is a test " /\
  snd (fake_start session_running) = None /\
  length (open_streams (fst (fake_start session_running))) = 2 /\
  isRunning 0 (fst (fake_start session_running)) = true /\
  isRunning 1 (fst (fake_start session_running)) = true /\
  audio_thread (app (fst (fake_start session_running))) = Some 1 /\
  transcription_at 1 (fst (fake_start session_running)) = Some [] /\
  transcription_output (app (fst (fake_start session_running))) = recording_banner.
Proof. vm_compute. repeat split. Qed.

(** After a block the recogniser cannot process, the worker is gone:
    the blocks behind it stay queued, nothing is notified, and stopping
    the session produces no summary. *)
Example scenario_decode_error :
  running_at 0 session_broken = Some (Raised waveform_failure) /\
  length (audio_queue session_broken) = 3 /\
  emitted session_broken = [] /\
  match fake_stop 2 session_broken with
  | Some (w', None) => emitted w' = [] /\ summary_output (app w') = []
  | _ => False
  end.
Proof. vm_compute. repeat split. Qed.

(** * Further properties *)

(** ** Words, separators and the threshold of the summariser *)

Lemma split_from_space (word a b : str) (c : char) :
  isspace c = true ->
  split_from word (a ++ c :: b) = split_from word a ++ split b.
Proof.
  intros Hc. revert word. induction a as [| x a IH]; intros word; simpl.
  - rewrite Hc. destruct word; reflexivity.
  - destruct (isspace x).
    + destruct word; rewrite IH; reflexivity.
    + apply IH.
Qed.

Lemma rev_cons_words (x : N) (word : str) :
  Forall (fun c => isspace c = false) (x :: word) ->
  rev (x :: word) <> [] /\ Forall (fun c => isspace c = false) (rev (x :: word)).
Proof.
  intros Hword. split.
  - intros Hnil. apply (f_equal (@length N)) in Hnil.
    rewrite length_rev in Hnil. simpl in Hnil. lia.
  - apply Forall_rev. exact Hword.
Qed.

Lemma split_from_words (word text : str) :
  Forall (fun c => isspace c = false) word ->
  Forall (fun w => w <> [] /\ Forall (fun c => isspace c = false) w)
         (split_from word text) /\
  concat (split_from word text) =
    rev word ++ filter (fun c => isspace c = false) text.
Proof.
  revert word. induction text as [| c text IH]; intros word Hword.
  - destruct word as [| x word].
    + split; [constructor | reflexivity].
    + change (split_from (x :: word) []) with [rev (x :: word)].
      split; [constructor; [apply rev_cons_words; exact Hword | constructor] |].
      simpl. rewrite !app_nil_r. reflexivity.
  - cbn [split_from]. destruct (isspace c) eqn:Hc.
    + rewrite filter_cons_False by (rewrite Hc; discriminate).
      destruct (IH [] ltac:(constructor)) as [Hwords Hcat].
      destruct word as [| x word]; [split; [exact Hwords | exact Hcat] |].
      split.
      * constructor; [apply rev_cons_words; exact Hword | exact Hwords].
      * change (concat (?w :: ?l)) with (w ++ concat l). rewrite Hcat. reflexivity.
    + rewrite filter_cons_True by exact Hc.
      destruct (IH (c :: word)) as [Hwords Hcat]; [constructor; assumption |].
      split; [exact Hwords |]. rewrite Hcat. simpl. rewrite <- app_assoc. reflexivity.
Qed.

(** X9: The words of [text.split()] are non-empty and free of whitespace, and
    put together they are the text with its whitespace removed: the word
    count that [generate_summary] tests counts nothing else. *)
Theorem split_words (text : str) :
  Forall (fun w => w <> [] /\ Forall (fun c => isspace c = false) w) (split text) /\
  concat (split text) = filter (fun c => isspace c = false) text.
Proof. apply split_from_words. constructor. Qed.

(** X6: The words of a transcription are the words of its segments, in
    order: the space appended after every segment keeps the last word of
    one segment and the first word of the next apart, so the threshold of
    the summariser is on the total number of words recognised. *)
Theorem split_transcript (segs : list str) :
  split (transcript_of segs) = concat (map split segs).
Proof.
  induction segs as [| s segs IH]; [reflexivity |].
  unfold transcript_of in *. simpl concat. simpl map.
  rewrite <- app_assoc. change (py " " ++ ?l) with (32%N :: l).
  unfold split at 1. rewrite split_from_space by reflexivity.
  rewrite IH. reflexivity.
Qed.

Lemma join_member (sep s : str) (parts : list str) :
  s ∈ parts -> exists before after, join sep parts = before ++ s ++ after.
Proof.
  induction parts as [| p parts IH]; intros Hin; [inversion Hin |].
  apply elem_of_cons in Hin as [-> | Hin].
  - exists []. destruct parts as [| p' parts].
    + exists []. simpl. rewrite app_nil_r. reflexivity.
    + exists (sep ++ join sep (p' :: parts)). reflexivity.
  - destruct (IH Hin) as (before & after & Heq).
    destruct parts as [| p' parts]; [inversion Hin |].
    exists (p ++ sep ++ before), after.
    change (join sep (p :: p' :: parts)) with (p ++ sep ++ join sep (p' :: parts)).
    rewrite Heq, <- !app_assoc. reflexivity.
Qed.

Section SummarizerMore.
Context `{!Sumy}.

(** X7: A transcription without a single word, empty or made of whitespace
    only (nothing was said, or only empty utterances were finalised), is
    answered with the fixed sentence, and the summariser is not called. *)
Theorem generate_summary_blank (text : str) :
  Forall (fun c => isspace c = true) text ->
  generate_summary_run text =
    (py "Summary: Not enough data for summarization.", []).
Proof.
  intros Hblank.
  assert (Hsplit : split text = []).
  { unfold split. induction Hblank as [| c text Hc _ IH]; [reflexivity |].
    simpl. rewrite Hc. exact IH. }
  destruct (generate_summary_run_cases text) as [[_ Heq] | [Hge _]]; [exact Heq |].
  rewrite Hsplit in Hge. simpl in Hge. lia.
Qed.

(** X8: The summary is extractive: every sentence the summariser returns for
    a text of at least ten words stands verbatim in the summary. *)
Theorem generate_summary_extractive (text s : str) :
  10 <= length (split text) ->
  s ∈ map sentence_str (LsaSummarizer (parser_document text) 2) ->
  exists before after, generate_summary text = before ++ s ++ after.
Proof.
  intros Hlong Hin. unfold generate_summary.
  destruct (generate_summary_run_cases text) as [[Hlt _] | [_ Heq]]; [lia |].
  rewrite Heq. simpl fst.
  destruct (join_member (py " ") s _ Hin) as (before & after & Hjoin).
  exists (py "Summary: " ++ before), after.
  rewrite Hjoin, <- app_assoc. reflexivity.
Qed.

End SummarizerMore.

Lemma generate_summary_blank_witness :
  @generate_summary_run fake_sumy (py "   ") =
    (py "Summary: Not enough data for summarization.", []).
Proof.
  apply (@generate_summary_blank fake_sumy (py "   ")).
  repeat constructor.
Defined.

Lemma generate_summary_extractive_witness :
  exists before after,
    @generate_summary fake_sumy thirty_words =
      before ++ py "eight nine ten eleven twelve thirteen fourteen fifteen." ++ after.
Proof.
  apply (@generate_summary_extractive fake_sumy thirty_words).
  - vm_compute. lia.
  - apply list_elem_of_lookup. exists 1. vm_compute. reflexivity.
Defined.

(** ** Turns, schedules and the queue *)

Section WorkerMore.
Context `{!Sumy, !Vosk, !Json}.

(** Everything one turn of [run] can do, on any queue and any thread. *)
Lemma run_step_shape (q : list bytes) (t : AudioProcessingThread) :
  exists q' t' sigs,
    run_step q t = (q', t', sigs) /\
    (q' = q \/ exists data, q = data :: q') /\
    recording t' = recording t /\
    thread_model t' = thread_model t /\
    transcription t `prefix_of` transcription t' /\
    ((sigs = [] /\ transcription t' = transcription t /\
      (running t' = running t \/
       running t = Running /\ recording t = true /\ exists e, running t' = Raised e))
     \/ (sigs = [transcription_signal (transcription t')] /\
         running t = Running /\ running t' = Running /\ recording t = true)
     \/ (sigs = [summary_signal (generate_summary (transcription t))] /\
         running t = Running /\ running t' = Finished /\ recording t = false /\
         transcription t' = transcription t /\ q' = q)).
Proof.
  unfold run_step.
  destruct (running t) eqn:Hrun.
  - exists q, t, []. rewrite Hrun. intuition auto.
  - destruct (recording t) eqn:Hrec.
    + destruct q as [| data q].
      { exists [], t, []. rewrite Hrun, Hrec. intuition auto. }
      destruct (AcceptWaveform (recognizer t) data) as [e | [[|] r]].
      * exists q, (set_running (Raised e) t), []. simpl. rewrite Hrec.
        split; [reflexivity |]. split; [right; eauto |].
        split; [reflexivity |]. split; [reflexivity |]. split; [reflexivity |].
        left. split; [reflexivity |]. split; [reflexivity |]. right. eauto.
      * destruct (Result r) as [js r'].
        destruct (json_loads js) as [e | result].
        -- exists q, (set_running (Raised e) (set_recognizer r' t)), []. simpl. rewrite Hrec.
           split; [reflexivity |]. split; [right; eauto |].
           split; [reflexivity |]. split; [reflexivity |]. split; [reflexivity |].
           left. split; [reflexivity |]. split; [reflexivity |]. right. eauto.
        -- eexists q, _, _. split; [reflexivity |]. simpl. rewrite Hrec, Hrun.
           split; [right; eauto |].
           split; [reflexivity |]. split; [reflexivity |].
           split; [eexists; reflexivity |].
           right. left. auto.
      * exists q, (set_recognizer r t), []. simpl. rewrite Hrec, Hrun.
        split; [reflexivity |]. split; [right; eauto |].
        split; [reflexivity |]. split; [reflexivity |]. split; [reflexivity |].
        left. auto.
    + eexists q, _, _. split; [reflexivity |]. simpl. rewrite Hrec.
      split; [left; reflexivity |].
      split; [reflexivity |]. split; [reflexivity |]. split; [reflexivity |].
      right. right. auto 10.
  - exists q, t, []. rewrite Hrun. intuition auto.
  - exists q, t, []. rewrite Hrun. intuition auto.
Qed.

(** What a turn of any thread leaves alone in the world. *)
Lemma thread_step_general (tid : nat) (w : world) :
  exists sigs,
    (audio_queue (thread_step tid w) = audio_queue w \/
     exists data, audio_queue w = data :: audio_queue (thread_step tid w)) /\
    stderr (thread_step tid w) = stderr w /\
    microphone (thread_step tid w) = microphone w /\
    streams (thread_step tid w) = streams w /\
    length (threads (thread_step tid w)) = length (threads w) /\
    (forall i, i <> tid -> threads (thread_step tid w) !! i = threads w !! i) /\
    stream (app (thread_step tid w)) = stream (app w) /\
    audio_thread (app (thread_step tid w)) = audio_thread (app w) /\
    emitted (thread_step tid w) = emitted w ++ map (pair tid) sigs.
Proof.
  destruct (threads w !! tid) as [t |] eqn:Hlook.
  - destruct (run_step_shape (audio_queue w) t) as (q' & t' & sigs & Hstep & Hq & _).
    destruct (thread_step_frame tid w t t' q' sigs Hlook Hstep)
      as (Hq1 & He & Hm & Hs & Ht & Hst & Hat & Hem).
    exists sigs. rewrite Hq1, He, Hm, Hs, Ht, Hst, Hat, Hem, length_insert.
    split; [destruct Hq as [-> | [data Hdata]]; [left; reflexivity | right; eauto] |].
    do 4 (split; [reflexivity |]).
    split; [| auto].
    intros i Hne. apply list_lookup_insert_ne. congruence.
  - rewrite (thread_step_absent tid w Hlook). exists []. simpl.
    rewrite app_nil_r. repeat split; auto.
Qed.

(** X1: The queue is first in, first out under every schedule, with any
    number of threads taking turns: what is queued at the end is what was
    queued at the start followed by the blocks delivered, in order, less
    a prefix of at most one block per turn.  Every block delivered is
    queued, flagged or not, and the flags of the flagged ones are what was
    printed, in order. *)
Theorem queue_is_fifo (evs : list event) (w : world) :
  exists k,
    audio_queue (happen_all evs w) = drop k (audio_queue w ++ blocks_of evs) /\
    k + length (blocks_of evs) <= length evs /\
    stderr (happen_all evs w) = stderr w ++ flags_of evs.
Proof.
  revert w. induction evs as [| ev evs IH]; intros w.
  - exists 0. simpl. rewrite !app_nil_r. auto.
  - destruct ev as [indata status | tid].
    + change (happen_all (Block indata status :: evs) w)
        with (happen_all evs (callback indata status w)).
      destruct (IH (callback indata status w)) as (k & Hq & Hk & He).
      exists k. rewrite Hq, He.
      change (blocks_of (Block indata status :: evs)) with (indata :: blocks_of evs).
      split; [| split; [simpl; lia |]].
      * destruct status; simpl; rewrite <- app_assoc; reflexivity.
      * destruct status as [flags |]; simpl; [rewrite <- app_assoc |]; reflexivity.
    + change (happen_all (Turn tid :: evs) w) with (happen_all evs (thread_step tid w)).
      change (blocks_of (Turn tid :: evs)) with (blocks_of evs).
      change (flags_of (Turn tid :: evs)) with (flags_of evs).
      destruct (IH (thread_step tid w)) as (k & Hq & Hk & He).
      destruct (thread_step_general tid w) as (sigs & Hq1 & He1 & _).
      rewrite Hq, He, He1.
      destruct Hq1 as [-> | [data Hdata]].
      * exists k. split; [reflexivity |]. split; [simpl; lia | reflexivity].
      * exists (S k). rewrite Hdata. split; [reflexivity |].
        split; [simpl; lia | reflexivity].
Qed.

(** X2: A transcription only grows: under every schedule a thread that exists
    still exists afterwards, with the same flag, and its transcription at
    the start is a prefix of its transcription at the end. *)
Theorem transcription_grows (evs : list event) (w : world) (tid : nat)
    (t : AudioProcessingThread) :
  threads w !! tid = Some t ->
  exists t',
    threads (happen_all evs w) !! tid = Some t' /\
    transcription t `prefix_of` transcription t' /\
    recording t' = recording t.
Proof.
  revert w t. induction evs as [| ev evs IH]; intros w t Hlook.
  - exists t. auto.
  - destruct ev as [indata status | tid'].
    + change (happen_all (Block indata status :: evs) w)
        with (happen_all evs (callback indata status w)).
      apply IH. destruct status; exact Hlook.
    + change (happen_all (Turn tid' :: evs) w) with (happen_all evs (thread_step tid' w)).
      destruct (decide (tid' = tid)) as [-> | Hne].
      * destruct (run_step_shape (audio_queue w) t)
          as (q' & t1 & sigs & Hstep & _ & Hrec & _ & Hpre & _).
        destruct (thread_step_frame tid w t t1 q' sigs Hlook Hstep)
          as (_ & _ & _ & _ & Ht & _).
        destruct (IH (thread_step tid w) t1) as (t' & Hlook' & Hpre' & Hrec').
        { rewrite Ht. rewrite list_lookup_insert_eq; [reflexivity |].
          eapply lookup_lt_Some; exact Hlook. }
        exists t'. split; [exact Hlook' |].
        split; [etrans; eassumption | congruence].
      * destruct (thread_step_general tid' w) as (sigs & _ & _ & _ & _ & _ & Hother & _).
        apply IH. rewrite Hother by congruence. exact Hlook.
Qed.

End WorkerMore.

Lemma transcription_grows_witness :
  exists t',
    threads session_running !! 0 = Some t' /\
    transcription fake_thread `prefix_of` transcription t' /\
    recording t' = recording fake_thread.
Proof.
  apply (@transcription_grows fake_sumy fake_vosk fake_json
           session_schedule session_started 0 fake_thread).
  reflexivity.
Defined.

(** ** Stopping *)

Section StopFacts.
Context `{!Sumy, !Vosk, !Json}.

Lemma isRunning_true (tid : nat) (w : world) :
  isRunning tid w = true ->
  exists t, threads w !! tid = Some t /\ running t = Running.
Proof.
  unfold isRunning. destruct (threads w !! tid) as [t |]; [| discriminate].
  destruct (running t) eqn:Hrun; try discriminate. eauto.
Qed.

Lemma thread_step_blocked_general (tid : nat) (w : world) :
  exists sigs,
    (audio_queue (thread_step_blocked tid w) = audio_queue w \/
     exists data, audio_queue w = data :: audio_queue (thread_step_blocked tid w)) /\
    stderr (thread_step_blocked tid w) = stderr w /\
    microphone (thread_step_blocked tid w) = microphone w /\
    streams (thread_step_blocked tid w) = streams w /\
    length (threads (thread_step_blocked tid w)) = length (threads w) /\
    (forall i, i <> tid -> threads (thread_step_blocked tid w) !! i = threads w !! i) /\
    stream (app (thread_step_blocked tid w)) = stream (app w) /\
    audio_thread (app (thread_step_blocked tid w)) = audio_thread (app w) /\
    emitted (thread_step_blocked tid w) = emitted w ++ map (pair tid) sigs.
Proof.
  destruct (threads w !! tid) as [t |] eqn:Hlook.
  - destruct (run_step_shape (audio_queue w) t) as (q' & t' & sigs & Hstep & Hq & _).
    destruct (thread_step_blocked_frame tid w t t' q' sigs Hlook Hstep)
      as (Hq1 & He & Hm & Hs & Ht & Ha & Hem).
    exists sigs. rewrite Hq1, He, Hm, Hs, Ht, Ha, Hem, length_insert.
    split; [destruct Hq as [-> | [data Hdata]]; [left; reflexivity | right; eauto] |].
    do 4 (split; [reflexivity |]).
    split; [| auto].
    intros i Hne. apply list_lookup_insert_ne. congruence.
  - rewrite (thread_step_blocked_absent tid w Hlook). exists []. simpl.
    rewrite app_nil_r. repeat split; auto.
Qed.

(** A thread whose flag is clear leaves [run] at its next turn: two units
    of fuel are enough for the wait. *)
Lemma wait_after_stop (fuel tid : nat) (w : world) (t : AudioProcessingThread) :
  threads w !! tid = Some t -> running t = Running -> recording t = false ->
  QThread_wait (S (S fuel)) tid w = Some (thread_step_blocked tid w) /\
  threads (thread_step_blocked tid w) !! tid = Some (set_running Finished t) /\
  audio_queue (thread_step_blocked tid w) = audio_queue w /\
  emitted (thread_step_blocked tid w) =
    emitted w ++ [(tid, summary_signal (generate_summary (transcription t)))].
Proof.
  intros Hlook Hrun Hrec.
  destruct (thread_step_blocked_frame tid w t (set_running Finished t) (audio_queue w)
              [summary_signal (generate_summary (transcription t))] Hlook
              (run_step_flag_clear (audio_queue w) t Hrun Hrec))
    as (Hq & _ & _ & _ & Ht & _ & He).
  assert (Hfin : threads (thread_step_blocked tid w) !! tid =
                 Some (set_running Finished t)).
  { rewrite Ht. rewrite list_lookup_insert_eq; [reflexivity |].
    eapply lookup_lt_Some; exact Hlook. }
  split; [| auto].
  simpl. unfold isRunning. rewrite Hlook, Hfin. simpl. rewrite Hrun. reflexivity.
Qed.

(** [stop_recording] with enough fuel, as one expression. *)
Lemma stop_recording_eq (fuel : nat) (w : world) :
  stop_recording (S (S fuel)) w =
  match stream (app w) with
  | None => Some (w, Some (AttributeError "MeetingSummarizerApp" "stream"))
  | Some sid =>
      let w2 := set_streams (alter Stream_close sid (alter Stream_stop sid (streams w)))
                  (set_streams (alter Stream_stop sid (streams w)) w) in
      match audio_thread (app w) with
      | Some tid =>
          if isRunning tid w
          then Some (thread_step_blocked tid
                       (set_threads (alter AudioProcessingThread_stop tid (threads w)) w2),
                     None)
          else Some (w2, None)
      | None => Some (w2, None)
      end
  end.
Proof.
  unfold stop_recording. destruct (stream (app w)) as [sid |]; [| reflexivity].
  cbn zeta. change (audio_thread (app (set_streams ?a (set_streams ?b w))))
    with (audio_thread (app w)).
  destruct (audio_thread (app w)) as [tid |]; [| reflexivity].
  change (isRunning tid (set_streams ?a (set_streams ?b w))) with (isRunning tid w).
  destruct (isRunning tid w) eqn:Hrunning; [| reflexivity].
  destruct (isRunning_true tid w Hrunning) as (t & Hlook & Hrun).
  match goal with
  | |- match QThread_wait _ _ ?w3 with _ => _ end = _ =>
      destruct (wait_after_stop fuel tid w3 (set_recording false t)) as (Hwait & _)
  end.
  - simpl. rewrite list_lookup_alter_eq, Hlook. reflexivity.
  - exact Hrun.
  - reflexivity.
  - rewrite Hwait. reflexivity.
Qed.

(** X10: [stop_recording] never blocks: the flag is cleared before the wait, so
    the wait ends after one turn of the worker.  It returns, with the same
    world and outcome, for every amount of fuel from two on, and it raises
    exactly when the [stream] attribute is missing. *)
Theorem stop_recording_returns (w : world) :
  exists w' r,
    (forall fuel, stop_recording (S (S fuel)) w = Some (w', r)) /\
    (r = None <-> is_Some (stream (app w))).
Proof.
  destruct (stop_recording (S (S 0)) w) as [[w' r] |] eqn:Hstop.
  - exists w', r. split.
    + intros fuel. rewrite stop_recording_eq. rewrite stop_recording_eq in Hstop.
      exact Hstop.
    + rewrite stop_recording_eq in Hstop.
      destruct (stream (app w)) as [sid |].
      * cbn zeta in Hstop. destruct (audio_thread (app w)) as [tid |];
          [destruct (isRunning tid w) |]; injection Hstop as _ <-;
          (split; [eauto | reflexivity]).
      * injection Hstop as _ <-. split; [discriminate | intros [? ?]; discriminate].
  - rewrite stop_recording_eq in Hstop.
    destruct (stream (app w)); [| discriminate]. cbn zeta in Hstop.
    destruct (audio_thread (app w)) as [tid |]; [destruct (isRunning tid w) |];
      discriminate.
Qed.

Lemma close_stop_twice (sid : nat) (l : list stream_state) :
  alter Stream_close sid (alter Stream_stop sid
    (alter Stream_close sid (alter Stream_stop sid l))) =
  alter Stream_close sid (alter Stream_stop sid l).
Proof.
  apply list_eq. intros i. destruct (decide (i = sid)) as [-> | Hne].
  - rewrite !list_lookup_alter_eq. destruct (l !! sid); reflexivity.
  - rewrite !list_lookup_alter_ne by congruence. reflexivity.
Qed.

Lemma stop_recording_effect (fuel : nat) (w : world) (sid : nat) :
  stream (app w) = Some sid ->
  exists w',
    stop_recording (S (S fuel)) w = Some (w', None) /\
    streams w' !! sid = (fun _ => Closed) <$> streams w !! sid /\
    (forall i, i <> sid -> streams w' !! i = streams w !! i) /\
    (forall i, audio_thread (app w) <> Some i -> threads w' !! i = threads w !! i) /\
    (forall tid, audio_thread (app w) = Some tid -> isRunning tid w' = false) /\
    stream (app w') = Some sid /\
    audio_thread (app w') = audio_thread (app w) /\
    audio_queue w' = audio_queue w.
Proof.
  intros Hstream. rewrite stop_recording_eq, Hstream. cbn zeta.
  assert (Hclosed : forall l : list stream_state,
             alter Stream_close sid (alter Stream_stop sid l) !! sid =
             (fun _ => Closed) <$> l !! sid).
  { intros l. rewrite !list_lookup_alter_eq. destruct (l !! sid); reflexivity. }
  assert (Hothers : forall (l : list stream_state) i, i <> sid ->
             alter Stream_close sid (alter Stream_stop sid l) !! i = l !! i).
  { intros l i Hne. rewrite !list_lookup_alter_ne by congruence. reflexivity. }
  destruct (audio_thread (app w)) as [tid |] eqn:Hthread.
  - destruct (isRunning tid w) eqn:Hrunning.
    + destruct (isRunning_true tid w Hrunning) as (t & Hlook & Hrun).
      eexists. split; [reflexivity |].
      match goal with
      | |- context [thread_step_blocked tid ?w3] =>
          destruct (wait_after_stop 0 tid w3 (set_recording false t))
            as (_ & Hfin & Hq & _);
          [simpl; rewrite list_lookup_alter_eq, Hlook; reflexivity
          | exact Hrun | reflexivity |];
          destruct (thread_step_blocked_general tid w3)
            as (sigs & _ & _ & _ & Hs & _ & Hother & Hst & Hat & _)
      end.
      rewrite Hs, Hst, Hat, Hq. simpl.
      split; [apply Hclosed |]. split; [apply Hothers |].
      split.
      { intros i Hne. rewrite Hother by congruence. simpl.
        apply list_lookup_alter_ne. congruence. }
      split.
      { intros tid' [= <-]. unfold isRunning. rewrite Hfin. reflexivity. }
      auto.
    + eexists. split; [reflexivity |]. simpl.
      split; [apply Hclosed |]. split; [apply Hothers |].
      split; [reflexivity |].
      split; [intros tid' [= <-]; exact Hrunning |]. auto.
  - eexists. split; [reflexivity |]. simpl.
    split; [apply Hclosed |]. split; [apply Hothers |].
    split; [reflexivity |]. split; [discriminate |]. auto.
Qed.

(** X11: A [stop_recording] that returns normally touches the current session
    only: the stream the application refers to is closed and every other
    stream is as before, every thread but the one it refers to is as
    before, that one is no longer running, and the two references and the
    queue are unchanged. *)
Theorem stop_recording_frame (fuel : nat) (w : world) (sid : nat) :
  stream (app w) = Some sid ->
  exists w',
    stop_recording (S (S fuel)) w = Some (w', None) /\
    streams w' !! sid = (fun _ => Closed) <$> streams w !! sid /\
    (forall i, i <> sid -> streams w' !! i = streams w !! i) /\
    (forall i, audio_thread (app w) <> Some i -> threads w' !! i = threads w !! i) /\
    (forall tid, audio_thread (app w) = Some tid -> isRunning tid w' = false) /\
    stream (app w') = Some sid /\
    audio_thread (app w') = audio_thread (app w) /\
    audio_queue w' = audio_queue w.
Proof. exact (stop_recording_effect fuel w sid). Qed.

(** X12: Stopping is idempotent: after a [stop_recording] that returned
    normally, a further one returns normally too, whatever its fuel, and
    changes nothing, so no second summary is produced. *)
Theorem stop_recording_twice (fuel fuel' : nat) (w w' : world) :
  stop_recording (S (S fuel)) w = Some (w', None) ->
  stop_recording fuel' w' = Some (w', None).
Proof.
  intros Hstop.
  destruct (stream (app w)) as [sid |] eqn:Hstream.
  - destruct (stop_recording_effect fuel w sid Hstream)
      as (w1 & Hstop1 & _ & _ & _ & Hidle & Hst & Hat & _).
    rewrite Hstop in Hstop1. injection Hstop1 as <-.
    assert (Hstreams : alter Stream_close sid (alter Stream_stop sid (streams w')) =
                       streams w').
    { rewrite stop_recording_eq, Hstream in Hstop. cbn zeta in Hstop.
      destruct (audio_thread (app w)) as [tid |]; [destruct (isRunning tid w) |];
        injection Hstop as <-.
      - match goal with
        | |- context [thread_step_blocked tid ?w3] =>
            destruct (thread_step_blocked_general tid w3) as (sigs & _ & _ & _ & Hs & _)
        end.
        rewrite Hs. simpl. apply close_stop_twice.
      - simpl. apply close_stop_twice.
      - simpl. apply close_stop_twice. }
    unfold stop_recording. rewrite Hst. cbn zeta.
    change (audio_thread (app (set_streams ?a (set_streams ?b w'))))
      with (audio_thread (app w')).
    change (streams (set_streams ?a w')) with a.
    rewrite Hstreams.
    assert (Hsame : set_streams (streams w')
                      (set_streams (alter Stream_stop sid (streams w')) w') = w').
    { destruct w'. reflexivity. }
    rewrite Hat. destruct (audio_thread (app w)) as [tid |] eqn:Hthread.
    + change (isRunning tid (set_streams ?a (set_streams ?b w'))) with (isRunning tid w').
      rewrite (Hidle tid eq_refl), Hsame. reflexivity.
    + rewrite Hsame. reflexivity.
  - rewrite stop_recording_eq, Hstream in Hstop. discriminate Hstop.
Qed.

End StopFacts.

Lemma stop_recording_frame_witness :
  exists w',
    fake_stop 2 session_running = Some (w', None) /\
    streams w' !! 0 = (fun _ => Closed) <$> streams session_running !! 0 /\
    isRunning 0 w' = false.
Proof.
  destruct (@stop_recording_frame fake_sumy fake_vosk fake_json 0 session_running 0)
    as (w' & Hstop & Hclosed & _ & _ & Hidle & _).
  - reflexivity.
  - exists w'. split; [exact Hstop |]. split; [exact Hclosed |].
    apply Hidle. reflexivity.
Defined.

Lemma stop_recording_twice_witness :
  match fake_stop 2 session_running with
  | Some (w', None) => fake_stop 0 w' = Some (w', None)
  | _ => False
  end.
Proof.
  destruct (fake_stop 2 session_running) as [[w' [e |]] |] eqn:Hstop.
  - vm_compute in Hstop. discriminate Hstop.
  - exact (@stop_recording_twice fake_sumy fake_vosk fake_json 0 0
             session_running w' Hstop).
  - vm_compute in Hstop. discriminate Hstop.
Defined.

(** ** Sequences of starts, stops and events *)

Section CommandFacts.
Context `{!Sumy, !Vosk, !Json}.

(** What [start_recording] does in both of its outcomes. *)
Lemma start_recording_effect (w : world) :
  audio_queue (fst (start_recording w)) = audio_queue w /\
  emitted (fst (start_recording w)) = emitted w /\
  microphone (fst (start_recording w)) = microphone w /\
  summary_output (app (fst (start_recording w))) = summary_output (app w) /\
  transcription_output (app (fst (start_recording w))) = recording_banner /\
  (if microphone w
   then streams (fst (start_recording w)) = streams w ++ [Active] /\
        threads (fst (start_recording w)) =
          threads w ++ [Thread model true Running (KaldiRecognizer_new model 16000) []] /\
        stream (app (fst (start_recording w))) = Some (length (streams w)) /\
        audio_thread (app (fst (start_recording w))) = Some (length (threads w)) /\
        snd (start_recording w) = None
   else streams (fst (start_recording w)) = streams w /\
        threads (fst (start_recording w)) = threads w /\
        stream (app (fst (start_recording w))) = stream (app w) /\
        audio_thread (app (fst (start_recording w))) = audio_thread (app w) /\
        snd (start_recording w) = Some PortAudioError).
Proof.
  destruct (microphone w) eqn:Hmic.
  - rewrite (start_recording_opens w Hmic). simpl. rewrite Hmic. repeat split.
  - destruct w as [q err mic ss ts em a]. simpl in Hmic. subst mic.
    unfold start_recording. simpl. repeat split.
Qed.

(** What an event leaves alone. *)
Lemma happen_effect (ev : event) (w : world) :
  microphone (happen w ev) = microphone w /\
  streams (happen w ev) = streams w /\
  length (threads (happen w ev)) = length (threads w) /\
  stream (app (happen w ev)) = stream (app w) /\
  audio_thread (app (happen w ev)) = audio_thread (app w).
Proof.
  destruct ev as [indata status | tid]; simpl.
  - destruct status; repeat split.
  - destruct (thread_step_general tid w) as (sigs & _ & _ & Hm & Hs & Hl & _ & Hst & Hat & _).
    auto.
Qed.

Lemma happen_all_effect (evs : list event) (w : world) :
  microphone (happen_all evs w) = microphone w /\
  streams (happen_all evs w) = streams w /\
  length (threads (happen_all evs w)) = length (threads w) /\
  stream (app (happen_all evs w)) = stream (app w) /\
  audio_thread (app (happen_all evs w)) = audio_thread (app w).
Proof.
  revert w. induction evs as [| ev evs IH]; intros w; [repeat split |].
  change (happen_all (ev :: evs) w) with (happen_all evs (happen w ev)).
  destruct (IH (happen w ev)) as (Hm & Hs & Hl & Hst & Hat).
  destruct (happen_effect ev w) as (Hm1 & Hs1 & Hl1 & Hst1 & Hat1).
  rewrite Hm, Hs, Hl, Hst, Hat. auto.
Qed.

Lemma run_slots_frame (sigs : list (nat * signal)) (w : world) :
  audio_queue (run_slots sigs w) = audio_queue w /\
  microphone (run_slots sigs w) = microphone w /\
  streams (run_slots sigs w) = streams w /\
  threads (run_slots sigs w) = threads w /\
  emitted (run_slots sigs w) = emitted w /\
  stream (app (run_slots sigs w)) = stream (app w) /\
  audio_thread (app (run_slots sigs w)) = audio_thread (app w).
Proof.
  revert w. induction sigs as [| [tid sig] sigs IH]; intros w; [repeat split |].
  unfold run_slots in *. simpl.
  destruct sig as [text | summary];
    match goal with
    | |- context [foldl _ ?w1 sigs] =>
        destruct (IH w1) as (Hq & Hm & Hs & Ht & He & Hst & Hat)
    end;
    rewrite Hq, Hm, Hs, Ht, He, Hst, Hat; repeat split.
Qed.

(** The stop command against the call it makes. *)
Lemma run_command_stop (w w' : world) (r : option exn) :
  stop_recording 2 w = Some (w', r) ->
  audio_queue (run_command w Stop) = audio_queue w' /\
  microphone (run_command w Stop) = microphone w' /\
  streams (run_command w Stop) = streams w' /\
  threads (run_command w Stop) = threads w' /\
  emitted (run_command w Stop) = emitted w' /\
  stream (app (run_command w Stop)) = stream (app w') /\
  audio_thread (app (run_command w Stop)) = audio_thread (app w').
Proof.
  intros Hstop. unfold run_command. rewrite Hstop.
  destruct r as [e |]; [repeat split | apply run_slots_frame].
Qed.

Lemma emitted_by_same (tid : nat) (w w' : world) :
  emitted w' = emitted w -> emitted_by tid w' = emitted_by tid w.
Proof. intros Hem. unfold emitted_by. rewrite Hem. reflexivity. Qed.

(** X13: Where the microphone cannot be opened nothing is ever recorded:
    whatever the commands, no stream and no thread is added, and the
    microphone stays unavailable. *)
Theorem no_microphone_no_session (cmds : list command) (w : world) :
  microphone w = false ->
  microphone (run_commands cmds w) = false /\
  length (streams (run_commands cmds w)) = length (streams w) /\
  length (threads (run_commands cmds w)) = length (threads w).
Proof.
  revert w. induction cmds as [| c cmds IH]; intros w Hmic; [auto |].
  assert (Hstep : microphone (run_command w c) = false /\
                  length (streams (run_command w c)) = length (streams w) /\
                  length (threads (run_command w c)) = length (threads w)).
  { destruct c as [| | ev]; [simpl | | simpl].
    - destruct (start_recording_effect w) as (_ & _ & Hm & _ & _ & Hcase).
      rewrite Hmic in Hcase. destruct Hcase as (Hs & Ht & _).
      rewrite Hm, Hs, Ht. auto.
    - destruct (stop_recording 2 w) as [[w' r] |] eqn:Hstop;
        [| unfold run_command; rewrite Hstop; auto].
      destruct (run_command_stop w w' r Hstop) as (_ & Hm' & Hs' & Ht' & _).
      rewrite Hm', Hs', Ht'. rewrite stop_recording_eq in Hstop.
      destruct (stream (app w)) as [sid |]; [| injection Hstop as <- _; auto].
      cbn zeta in Hstop.
      destruct (audio_thread (app w)) as [tid |]; [destruct (isRunning tid w) |];
        injection Hstop as <- _; simpl; rewrite ?length_alter; auto.
      match goal with
      | |- context [thread_step_blocked tid ?w3] =>
          destruct (thread_step_blocked_general tid w3) as (sigs & _ & _ & Hm & Hs & Hl & _)
      end.
      rewrite Hm, Hs, Hl. simpl. rewrite !length_alter. auto.
    - destruct (happen_effect ev w) as (Hm & Hs & Hl & _).
      rewrite Hm, Hs, Hl. auto. }
  cbn [run_commands]. destruct (raises w c); [exact Hstep |].
  destruct Hstep as (Hm & Hs & Ht).
  destruct (IH (run_command w c) Hm) as (Hm' & Hs' & Ht').
  rewrite Hm', Hs', Ht', Hs, Ht. auto.
Qed.

(** X14: A session that is started, runs under any schedule and is stopped
    leaves no stream open that was not open before: the stream it opened
    is closed, and the worker it started is no longer running. *)
Theorem session_closes_its_stream (evs : list event) (w : world) :
  microphone w = true ->
  exists w',
    stop_recording 2 (happen_all evs (fst (start_recording w))) = Some (w', None) /\
    streams w' = streams w ++ [Closed] /\
    open_streams w' = open_streams w /\
    isRunning (length (threads w)) w' = false.
Proof.
  intros Hmic.
  destruct (start_recording_effect w) as (_ & _ & _ & _ & _ & Hcase).
  rewrite Hmic in Hcase. destruct Hcase as (Hs & Ht & Hst & Hat & _).
  destruct (happen_all_effect evs (fst (start_recording w)))
    as (_ & Hs' & _ & Hst' & Hat').
  rewrite Hst in Hst'. rewrite Hat in Hat'. rewrite Hs in Hs'.
  destruct (stop_recording_effect 0 _ _ Hst')
    as (w' & Hstop & _ & _ & _ & Hidle & _).
  exists w'. split; [exact Hstop |].
  assert (Hstreams : streams w' = streams w ++ [Closed]).
  { rewrite stop_recording_eq, Hst' in Hstop. cbn zeta in Hstop.
    assert (Hclose : alter Stream_close (length (streams w))
                       (alter Stream_stop (length (streams w)) (streams w ++ [Active])) =
                     streams w ++ [Closed]).
    { rewrite !alter_app_r_alt by reflexivity. rewrite Nat.sub_diag. reflexivity. }
    destruct (audio_thread (app (happen_all evs (fst (start_recording w))))) as [tid |];
      [destruct (isRunning tid (happen_all evs (fst (start_recording w)))) |];
      injection Hstop as <-.
    - match goal with
      | |- context [thread_step_blocked tid ?w3] =>
          destruct (thread_step_blocked_general tid w3) as (sigs & _ & _ & _ & Hs3 & _)
      end.
      rewrite Hs3. simpl. rewrite Hs'. exact Hclose.
    - simpl. rewrite Hs'. exact Hclose.
    - simpl. rewrite Hs'. exact Hclose. }
  split; [exact Hstreams |].
  split; [| apply Hidle; exact Hat'].
  unfold open_streams. rewrite Hstreams, filter_app.
  rewrite filter_cons_False by (simpl; discriminate).
  rewrite filter_nil, app_nil_r. reflexivity.
Qed.

End CommandFacts.

Lemma no_microphone_no_session_witness :
  microphone (fake_run_commands [Start; Happen (Turn 0); Stop] (world_init false)) = false /\
  length (streams (fake_run_commands [Start; Happen (Turn 0); Stop] (world_init false))) =
    length (streams (@world_init fake_vosk false)) /\
  length (threads (fake_run_commands [Start; Happen (Turn 0); Stop] (world_init false))) =
    length (threads (@world_init fake_vosk false)).
Proof.
  apply (@no_microphone_no_session fake_sumy fake_vosk fake_json
           [Start; Happen (Turn 0); Stop] (world_init false)).
  reflexivity.
Defined.

Lemma session_closes_its_stream_witness :
  exists w',
    fake_stop 2 session_running = Some (w', None) /\
    streams w' = streams (@world_init fake_vosk true) ++ [Closed] /\
    open_streams w' = open_streams (@world_init fake_vosk true) /\
    isRunning (length (threads (@world_init fake_vosk true))) w' = false.
Proof.
  apply (@session_closes_its_stream fake_sumy fake_vosk fake_json
           session_schedule (world_init true)).
  reflexivity.
Defined.

(** ** What a second start leaves behind *)

Section OrphanFacts.
Context `{!Sumy, !Vosk, !Json}.

(** The two ways a [stop_recording] can end for the threads and the
    signals: nothing happens to them, or the current worker was running,
    has returned from [run] and has emitted its summary. *)
Lemma stop_recording_cases (fuel : nat) (w : world) :
  exists w' r,
    stop_recording (S (S fuel)) w = Some (w', r) /\
    microphone w' = microphone w /\
    length (threads w') = length (threads w) /\
    audio_thread (app w') = audio_thread (app w) /\
    audio_queue w' = audio_queue w /\
    ((threads w' = threads w /\ emitted w' = emitted w)
     \/ exists tid t,
          audio_thread (app w) = Some tid /\
          threads w !! tid = Some t /\ running t = Running /\
          threads w' !! tid = Some (set_running Finished (set_recording false t)) /\
          (forall i, i <> tid -> threads w' !! i = threads w !! i) /\
          emitted w' =
            emitted w ++ [(tid, summary_signal (generate_summary (transcription t)))]).
Proof.
  rewrite stop_recording_eq.
  destruct (stream (app w)) as [sid |]; [| eexists _, _; split; [reflexivity |]; auto 10].
  cbn zeta. destruct (audio_thread (app w)) as [tid |] eqn:Hthread;
    [| eexists _, _; split; [reflexivity |]; simpl; auto 10].
  destruct (isRunning tid w) eqn:Hrunning;
    [| eexists _, _; split; [reflexivity |]; simpl; auto 10].
  destruct (isRunning_true tid w Hrunning) as (t & Hlook & Hrun).
  eexists _, _. split; [reflexivity |].
  match goal with
  | |- context [thread_step_blocked tid ?w3] =>
      destruct (wait_after_stop 0 tid w3 (set_recording false t))
        as (_ & Hfin & Hq & Hem);
      [simpl; rewrite list_lookup_alter_eq, Hlook; reflexivity
      | exact Hrun | reflexivity |];
      destruct (thread_step_blocked_general tid w3)
        as (sigs & _ & _ & Hm & _ & Hl & Hother & _ & Hat & _)
  end.
  rewrite Hm, Hl, Hat, Hq. simpl. rewrite length_alter.
  do 4 (split; [reflexivity || exact Hthread |]).
  right. exists tid, t.
  split; [reflexivity |]. split; [exact Hlook |]. split; [exact Hrun |].
  split; [exact Hfin |]. split; [| exact Hem].
  intros i Hne. rewrite Hother by congruence. simpl.
  apply list_lookup_alter_ne. congruence.
Qed.

(** X15: A stream the application no longer refers to, as [start_recording]
    leaves the stream of a session that was still running, keeps its
    state for ever: no sequence of commands stops or closes it, and the
    application never refers to it again. *)
Theorem orphan_stream_stays (cmds : list command) (w : world) (i : nat)
    (s : stream_state) :
  streams w !! i = Some s -> stream (app w) <> Some i ->
  streams (run_commands cmds w) !! i = Some s /\
  stream (app (run_commands cmds w)) <> Some i.
Proof.
  revert w. induction cmds as [| c cmds IH]; intros w Hlook Href; [auto |].
  assert (Hstep : streams (run_command w c) !! i = Some s /\
                  stream (app (run_command w c)) <> Some i).
  { destruct c as [| | ev]; [simpl | | simpl].
    - destruct (start_recording_effect w) as (_ & _ & _ & _ & _ & Hcase).
      destruct (microphone w).
      + destruct Hcase as (Hs & _ & Hst & _). rewrite Hs, Hst.
        split; [apply lookup_app_l_Some; exact Hlook |].
        intros [= Heq]. apply lookup_lt_Some in Hlook. lia.
      + destruct Hcase as (Hs & _ & Hst & _). rewrite Hs, Hst. auto.
    - destruct (stream (app w)) as [sid |] eqn:Hstream.
      + destruct (stop_recording_effect 0 w sid Hstream)
          as (w' & Hstop & _ & Hothers & _ & _ & Hst & _).
        destruct (run_command_stop w w' None Hstop) as (_ & _ & Hs' & _ & _ & Hst' & _).
        rewrite Hs', Hst', Hst. split; [| exact Href].
        rewrite Hothers by congruence. exact Hlook.
      + unfold run_command.
        rewrite (stop_recording_eq 0 w), Hstream. rewrite Hstream. auto.
    - destruct (happen_effect ev w) as (_ & Hs & _ & Hst & _).
      rewrite Hs, Hst. auto. }
  cbn [run_commands]. destruct (raises w c); [exact Hstep |].
  destruct Hstep as [Hlook' Href']. apply IH; assumption.
Qed.

(** X16: A worker the application no longer refers to keeps its flag set for
    ever, since the only code that clears a flag reaches the current
    worker: it never leaves the loop normally and never emits a
    summary. *)
Theorem orphan_worker_never_finishes (cmds : list command) (w : world) (i : nat)
    (t : AudioProcessingThread) :
  threads w !! i = Some t -> audio_thread (app w) <> Some i ->
  recording t = true -> running t <> Finished ->
  exists t',
    threads (run_commands cmds w) !! i = Some t' /\
    recording t' = true /\ running t' <> Finished /\
    filter (fun s => is_summary s = true) (emitted_by i (run_commands cmds w)) =
    filter (fun s => is_summary s = true) (emitted_by i w).
Proof.
  revert w t. induction cmds as [| c cmds IH]; intros w t Hlook Href Hrec Hrun;
    [exists t; auto |].
  assert (Hstep : exists t1,
             threads (run_command w c) !! i = Some t1 /\
             audio_thread (app (run_command w c)) <> Some i /\
             recording t1 = true /\ running t1 <> Finished /\
             filter (fun s => is_summary s = true) (emitted_by i (run_command w c)) =
             filter (fun s => is_summary s = true) (emitted_by i w)).
  { destruct c as [| | ev]; [simpl | | simpl].
    - destruct (start_recording_effect w) as (_ & Hem & _ & _ & _ & Hcase).
      exists t. unfold emitted_by. rewrite Hem.
      destruct (microphone w).
      + destruct Hcase as (_ & Ht & _ & Hat & _). rewrite Ht, Hat.
        split; [apply lookup_app_l_Some; exact Hlook |].
        split; [| auto].
        intros [= Heq]. apply lookup_lt_Some in Hlook. lia.
      + destruct Hcase as (_ & Ht & _ & Hat & _). rewrite Ht, Hat. auto.
    - destruct (stop_recording_cases 0 w)
        as (w' & r & Hstop & _ & _ & Hat & _ & Hcase).
      destruct (run_command_stop w w' r Hstop) as (_ & _ & _ & Ht' & He' & _ & Hat').
      rewrite Ht', Hat', (emitted_by_same i w' _ He'), Hat. exists t.
      destruct Hcase as [[Ht Hem] | (tid & t0 & Hcur & _ & _ & _ & Hother & Hem)].
      + rewrite Ht. unfold emitted_by. rewrite Hem. auto.
      + assert (Hne : tid <> i) by congruence.
        rewrite Hother by congruence.
        rewrite (emitted_by_app i tid w w'
                   [summary_signal (generate_summary (transcription t0))] Hem).
        destruct (Nat.eqb_spec tid i) as [Heq | _]; [contradiction |].
        rewrite app_nil_r. auto.
    - destruct ev as [indata status | tid]; simpl.
      + exists t. destruct status; auto.
      + destruct (decide (tid = i)) as [-> | Hne].
        * destruct (run_step_shape (audio_queue w) t)
            as (q' & t1 & sigs & Hstep & _ & Hrec1 & _ & _ & Hsigs).
          destruct (thread_step_frame i w t t1 q' sigs Hlook Hstep)
            as (_ & _ & _ & _ & Ht & _ & Hat & Hem).
          exists t1. rewrite Ht, Hat.
          rewrite (emitted_by_app i i w (thread_step i w) sigs Hem), Nat.eqb_refl.
          rewrite filter_app.
          split; [rewrite list_lookup_insert_eq; [reflexivity |];
                  eapply lookup_lt_Some; exact Hlook |].
          split; [exact Href |]. split; [congruence |].
          destruct Hsigs as [(-> & _ & Hr) | [(-> & _ & Hr & _) | (_ & _ & _ & Hflag & _)]].
          -- split; [| rewrite app_nil_r; reflexivity].
             destruct Hr as [-> | (_ & _ & e & ->)]; [exact Hrun | discriminate].
          -- split; [rewrite Hr; discriminate |].
             rewrite filter_cons_False by (simpl; discriminate).
             rewrite filter_nil, app_nil_r. reflexivity.
          -- congruence.
        * destruct (thread_step_general tid w)
            as (sigs & _ & _ & _ & _ & _ & Hother & _ & Hat & Hem).
          exists t. rewrite Hat, Hother by congruence.
          rewrite (emitted_by_app i tid w (thread_step tid w) sigs Hem).
          destruct (Nat.eqb_spec tid i) as [Heq | _]; [contradiction |].
          rewrite app_nil_r. auto. }
  destruct Hstep as (t1 & Hlook1 & Href1 & Hrec1 & Hrun1 & Hsum1).
  cbn [run_commands]. destruct (raises w c); [exists t1; auto |].
  destruct (IH (run_command w c) t1 Hlook1 Href1 Hrec1 Hrun1)
    as (t' & Hlook' & Hrec' & Hrun' & Hsum').
  exists t'. rewrite Hsum', Hsum1. auto.
Qed.

(** X17: The queue is global and never cleared: blocks that were still queued
    when a session was stopped are still queued when the next one
    starts, and the first turn of the new worker takes the oldest of
    them. *)
Theorem stale_blocks_reach_next_session (w : world) (sid : nat) :
  microphone w = true -> stream (app w) = Some sid ->
  exists w1 w2,
    stop_recording 2 w = Some (w1, None) /\
    start_recording w1 = (w2, None) /\
    audio_queue w2 = audio_queue w /\
    audio_thread (app w2) = Some (length (threads w)) /\
    forall data q,
      audio_queue w = data :: q ->
      audio_queue (thread_step (length (threads w)) w2) = q.
Proof.
  intros Hmic Hstream.
  destruct (stop_recording_cases 0 w) as (w1 & r & Hstop & Hm & Hl & _ & Hq & _).
  destruct (stop_recording_effect 0 w sid Hstream) as (w1' & Hstop' & _).
  rewrite Hstop in Hstop'. injection Hstop' as <- ->.
  rewrite <- Hm in Hmic.
  exists w1. eexists. split; [exact Hstop |].
  split; [exact (start_recording_opens w1 Hmic) |].
  simpl. rewrite Hq, Hl. split; [reflexivity |]. split; [reflexivity |].
  intros data q Hqueue.
  match goal with
  | |- audio_queue (thread_step ?n ?w2) = _ =>
      destruct (run_step_pop q data
                  (Thread model true Running (KaldiRecognizer_new model 16000) [])
                  eq_refl eq_refl)
        as (t1 & segs & Hstep & _);
      destruct (thread_step_frame n w2
                  (Thread model true Running (KaldiRecognizer_new model 16000) [])
                  t1 q (notifications [] segs)) as (Hq2 & _)
  end.
  - simpl. rewrite lookup_app_r by (rewrite Hl; reflexivity).
    rewrite Hl, Nat.sub_diag. reflexivity.
  - simpl. rewrite Hqueue. exact Hstep.
  - exact Hq2.
Qed.

End OrphanFacts.

Lemma orphan_stream_stays_witness :
  streams (fake_run_commands [Stop; Start; Stop] session_doubled) !! 0 = Some Active /\
  stream (app (fake_run_commands [Stop; Start; Stop] session_doubled)) <> Some 0.
Proof.
  apply (@orphan_stream_stays fake_sumy fake_vosk fake_json
           [Stop; Start; Stop] session_doubled 0 Active).
  - reflexivity.
  - vm_compute. discriminate.
Defined.

Lemma orphan_worker_never_finishes_witness :
  exists t',
    threads (fake_run_commands [Stop; Happen (Turn 0); Stop] session_doubled) !! 0 =
      Some t' /\
    recording t' = true /\ running t' <> Finished /\
    filter (fun s => is_summary s = true)
      (emitted_by 0 (fake_run_commands [Stop; Happen (Turn 0); Stop] session_doubled)) =
    filter (fun s => is_summary s = true) (emitted_by 0 session_doubled).
Proof.
  apply (@orphan_worker_never_finishes fake_sumy fake_vosk fake_json
           [Stop; Happen (Turn 0); Stop] session_doubled 0 fake_thread).
  - reflexivity.
  - vm_compute. discriminate.
  - reflexivity.
  - vm_compute. discriminate.
Defined.

Lemma stale_blocks_reach_next_session_witness :
  exists w1 w2,
    fake_stop 2 session_broken = Some (w1, None) /\
    fake_start w1 = (w2, None) /\
    audio_queue w2 = audio_queue session_broken /\
    audio_thread (app w2) = Some (length (threads session_broken)) /\
    forall data q,
      audio_queue session_broken = data :: q ->
      audio_queue (@thread_step fake_sumy fake_vosk fake_json
                     (length (threads session_broken)) w2) = q.
Proof.
  apply (@stale_blocks_reach_next_session fake_sumy fake_vosk fake_json session_broken 0).
  - reflexivity.
  - reflexivity.
Defined.

(** ** The signals of one worker *)

Section SignalFacts.
Context `{!Sumy, !Vosk, !Json}.

(** No command touches a thread that has left [run]. *)
Lemma ended_thread_command (c : command) (w : world) (tid : nat)
    (t : AudioProcessingThread) :
  threads w !! tid = Some t -> running t <> Running ->
  threads (run_command w c) !! tid = Some t /\
  emitted_by tid (run_command w c) = emitted_by tid w.
Proof.
  intros Hlook Hended. destruct c as [| | ev]; [simpl | | simpl].
  - destruct (start_recording_effect w) as (_ & Hem & _ & _ & _ & Hcase).
    unfold emitted_by. rewrite Hem.
    destruct (microphone w); destruct Hcase as (_ & Ht & _); rewrite Ht;
      [split; [apply lookup_app_l_Some; exact Hlook | reflexivity] | auto].
  - destruct (stop_recording_cases 0 w) as (w' & r & Hstop & _ & _ & _ & _ & Hcase).
    destruct (run_command_stop w w' r Hstop) as (_ & _ & _ & Ht' & He' & _).
    rewrite Ht', (emitted_by_same tid w' _ He').
    destruct Hcase as [[Ht Hem] | (tid' & t0 & _ & Hlook0 & Hrun0 & _ & Hother & Hem)].
    + rewrite Ht. unfold emitted_by. rewrite Hem. auto.
    + assert (Hne : tid' <> tid) by (intros ->; congruence).
      rewrite Hother by congruence.
      rewrite (emitted_by_app tid tid' w w'
                 [summary_signal (generate_summary (transcription t0))] Hem).
      destruct (Nat.eqb_spec tid' tid) as [Heq | _]; [contradiction |].
      rewrite app_nil_r. auto.
  - exact (ended_thread_silent tid [ev] w t Hlook Hended).
Qed.

Lemma sequence_step (c : command) (w : world) (tid : nat) (base : list signal) :
  (exists t new,
     threads w !! tid = Some t /\ emitted_by tid w = base ++ new /\
     ((running t = Running /\ recording t = true /\
       exists ts, new = map transcription_signal ts)
      \/ (running t <> Running /\ in_sequence t new))) ->
  exists t new,
    threads (run_command w c) !! tid = Some t /\
    emitted_by tid (run_command w c) = base ++ new /\
    ((running t = Running /\ recording t = true /\
      exists ts, new = map transcription_signal ts)
     \/ (running t <> Running /\ in_sequence t new)).
Proof.
  intros (t & new & Hlook & Hem & [(Hrun & Hrec & ts & Hts) | (Hended & Hseq)]).
  2: { destruct (ended_thread_command c w tid t Hlook Hended) as [Hlook' Hem'].
       exists t, new. rewrite Hlook', Hem', Hem. auto. }
  destruct c as [| | ev]; [simpl | | simpl].
  - destruct (start_recording_effect w) as (_ & Hem1 & _ & _ & _ & Hcase).
    exists t, new. unfold emitted_by in *. rewrite Hem1, Hem.
    split; [| split; [reflexivity | left; eauto]].
    destruct (microphone w); destruct Hcase as (_ & Ht & _); rewrite Ht;
      [apply lookup_app_l_Some |]; exact Hlook.
  - destruct (stop_recording_cases 0 w) as (w' & r & Hstop & _ & _ & _ & _ & Hcase).
    destruct (run_command_stop w w' r Hstop) as (_ & _ & _ & Ht' & He' & _).
    rewrite Ht', (emitted_by_same tid w' _ He').
    destruct Hcase as [[Ht Hem1] | (tid' & t0 & _ & Hlook0 & Hrun0 & Hfin & Hother & Hem1)].
    + exists t, new. rewrite Ht. unfold emitted_by in *. rewrite Hem1, Hem.
      split; [exact Hlook |]. split; [reflexivity | left; eauto].
    + pose proof (emitted_by_app tid tid' w w'
                    [summary_signal (generate_summary (transcription t0))] Hem1) as Hby.
      destruct (Nat.eqb_spec tid' tid) as [-> | Hne].
      * rewrite Hlook in Hlook0. injection Hlook0 as <-.
        exists (set_running Finished (set_recording false t)),
               (new ++ [summary_signal (generate_summary (transcription t))]).
        split; [exact Hfin |].
        split; [rewrite Hby, Hem, <- app_assoc; reflexivity |].
        right. split; [discriminate |].
        exists ts. right. split; [reflexivity |]. rewrite Hts. reflexivity.
      * exists t, new. rewrite Hother by congruence.
        rewrite Hby, app_nil_r, Hem.
        split; [exact Hlook |]. split; [reflexivity | left; eauto].
  - destruct ev as [indata status | tid']; simpl.
    + exists t, new. split; [destruct status; exact Hlook |].
      split; [destruct status; exact Hem | left; eauto].
    + destruct (decide (tid' = tid)) as [-> | Hne].
      * destruct (run_step_shape (audio_queue w) t)
          as (q' & t1 & sigs & Hstep & _ & Hrec1 & _ & _ & Hsigs).
        destruct (thread_step_frame tid w t t1 q' sigs Hlook Hstep)
          as (_ & _ & _ & _ & Ht & _ & _ & Hem1).
        pose proof (emitted_by_app tid tid w (thread_step tid w) sigs Hem1) as Hby.
        rewrite Nat.eqb_refl in Hby.
        exists t1, (new ++ sigs).
        split; [rewrite Ht; rewrite list_lookup_insert_eq; [reflexivity |];
                eapply lookup_lt_Some; exact Hlook |].
        split; [rewrite Hby, Hem, <- app_assoc; reflexivity |].
        destruct Hsigs as [(-> & _ & Hr) | [(-> & _ & Hr & _) | (_ & _ & _ & Hflag & _)]].
        -- rewrite app_nil_r.
           destruct Hr as [Hsame | (_ & _ & e & Hraised)].
           ++ left. split; [congruence |]. split; [congruence | eauto].
           ++ right. split; [rewrite Hraised; discriminate |].
              exists ts. left. split; [rewrite Hraised; discriminate | exact Hts].
        -- left. split; [exact Hr |]. split; [congruence |].
           exists (ts ++ [transcription t1]). rewrite Hts, map_app. reflexivity.
        -- congruence.
      * destruct (thread_step_general tid' w)
          as (sigs & _ & _ & _ & _ & _ & Hother & _ & _ & Hem1).
        exists t, new. rewrite Hother by congruence.
        rewrite (emitted_by_app tid tid' w (thread_step tid' w) sigs Hem1).
        destruct (Nat.eqb_spec tid' tid) as [Heq | _]; [contradiction |].
        rewrite app_nil_r, Hem.
        split; [exact Hlook |]. split; [reflexivity | left; eauto].
Qed.

Lemma sequence_steps (cmds : list command) (w : world) (tid : nat)
    (base : list signal) :
  (exists t new,
     threads w !! tid = Some t /\ emitted_by tid w = base ++ new /\
     ((running t = Running /\ recording t = true /\
       exists ts, new = map transcription_signal ts)
      \/ (running t <> Running /\ in_sequence t new))) ->
  exists t new,
    threads (run_commands cmds w) !! tid = Some t /\
    emitted_by tid (run_commands cmds w) = base ++ new /\
    ((running t = Running /\ recording t = true /\
      exists ts, new = map transcription_signal ts)
     \/ (running t <> Running /\ in_sequence t new)).
Proof.
  revert w. induction cmds as [| c cmds IH]; intros w Hinv; [exact Hinv |].
  cbn [run_commands]. destruct (raises w c).
  - apply sequence_step. exact Hinv.
  - apply IH. apply sequence_step. exact Hinv.
Qed.

(** X3: Whatever the user and the environment do, the signals of a worker
    come in sequence: transcriptions only while it is in [run], and once
    it has returned exactly one summary, emitted last, of the
    transcription it ended with.  A worker that left [run] on an
    exception has emitted no summary. *)
Theorem signals_in_sequence (cmds : list command) (w : world) (tid : nat)
    (t : AudioProcessingThread) :
  threads w !! tid = Some t -> running t = Running -> recording t = true ->
  exists t' new,
    threads (run_commands cmds w) !! tid = Some t' /\
    emitted_by tid (run_commands cmds w) = emitted_by tid w ++ new /\
    in_sequence t' new.
Proof.
  intros Hlook Hrun Hrec.
  destruct (sequence_steps cmds w tid (emitted_by tid w))
    as (t' & new & Hlook' & Hem' & Hcase).
  { exists t, []. rewrite app_nil_r. split; [exact Hlook |].
    split; [reflexivity |]. left. split; [exact Hrun |]. split; [exact Hrec |].
    exists []. reflexivity. }
  exists t', new. split; [exact Hlook' |]. split; [exact Hem' |].
  destruct Hcase as [(Hrun' & _ & ts & Hts) | (_ & Hseq)]; [| exact Hseq].
  exists ts. left. split; [rewrite Hrun'; discriminate | exact Hts].
Qed.

End SignalFacts.

Lemma signals_in_sequence_witness :
  exists t' new,
    threads (fake_run_commands
               [Happen (Block (block_end "bye") None); Happen (Turn 0); Stop; Stop]
               session_running) !! 0 = Some t' /\
    emitted_by 0 (fake_run_commands
                    [Happen (Block (block_end "bye") None); Happen (Turn 0); Stop; Stop]
                    session_running) =
      emitted_by 0 session_running ++ new /\
    @in_sequence fake_sumy fake_vosk t' new.
Proof.
  apply (@signals_in_sequence fake_sumy fake_vosk fake_json
           [Happen (Block (block_end "bye") None); Happen (Turn 0); Stop; Stop]
           session_running 0
           (set_transcription (py "hello world this is a test ") fake_thread)).
  - vm_compute. reflexivity.
  - reflexivity.
  - reflexivity.
Defined.

(** The run behind the statement above: one more utterance, then two
    stops; one summary, last. *)
Example scenario_signals :
  map snd (emitted (fake_run_commands
                      [Happen (Block (block_end "bye") None); Happen (Turn 0); Stop; Stop]
                      session_running)) =
    [transcription_signal (py "hello world ");
     transcription_signal (py "hello world this is a test ");
     transcription_signal (py "hello world this is a test bye ");
     summary_signal (py "Summary: Not enough data for summarization.")].
Proof. vm_compute. reflexivity. Qed.

(** ** A result that does not parse *)

Section JsonFacts.
Context `{!Sumy, !Vosk, !Json}.

(** X5: An exception raised by [json.loads] on the text of a finalised
    utterance ends the worker like one raised by the recogniser, and the
    utterance is lost: the recogniser has been reset by [Result], nothing
    is appended and nothing is emitted, whatever turns follow. *)
Theorem json_error_ends_worker (n : nat) (q : list bytes) (data : bytes)
    (t : AudioProcessingThread) (r r' : KaldiRecognizer) (js : str) (e : exn) :
  running t = Running -> recording t = true ->
  AcceptWaveform (recognizer t) data = inr (true, r) ->
  Result r = (js, r') ->
  json_loads js = inl e ->
  run_steps (S n) (data :: q) t =
    (q, set_running (Raised e) (set_recognizer r' t), []).
Proof.
  intros Hrun Hrec Hacc Hres Hjson. rewrite run_steps_succ.
  unfold run_step at 1. rewrite Hrun, Hrec, Hacc, Hres, Hjson.
  rewrite run_steps_ended by discriminate. reflexivity.
Qed.

End JsonFacts.

Lemma json_error_ends_worker_witness :
  @run_steps fake_sumy fake_vosk fake_json_failing 3
    [block_end "hello"; block_end "world"] fake_thread =
    ([block_end "world"],
     set_running (Raised (Exn "JSONDecodeError" "Expecting value"))
       (set_recognizer ([] : @KaldiRecognizer fake_vosk) fake_thread),
     []).
Proof.
  apply (@json_error_ends_worker fake_sumy fake_vosk fake_json_failing 2
           [block_end "world"] (block_end "hello") fake_thread
           (list_byte_of_string "hello") [] (py "hello")
           (Exn "JSONDecodeError" "Expecting value"));
    vm_compute; reflexivity.
Defined.

(** ** Translation *)

Lemma split_sep_from_join (sep : char) (piece text : str) :
  join [sep] (split_sep_from sep piece text) = rev piece ++ text.
Proof.
  revert piece. induction text as [| c text IH]; intros piece; simpl.
  - rewrite app_nil_r. reflexivity.
  - destruct (N.eqb_spec c sep) as [-> | Hne].
    + specialize (IH []). simpl in IH.
      destruct (split_sep_from sep [] text) as [| p ps] eqn:Hpieces.
      * destruct text; simpl in Hpieces; [discriminate |].
        destruct (_ =? _)%N; discriminate.
      * change (join [sep] (rev piece :: p :: ps))
          with (rev piece ++ [sep] ++ join [sep] (p :: ps)).
        rewrite IH. reflexivity.
    + rewrite IH. simpl. rewrite <- app_assoc. reflexivity.
Qed.

Lemma elem_of_rev (c : N) (l : str) : c ∈ rev l <-> c ∈ l.
Proof. rewrite !list_elem_of_In. symmetry. apply in_rev. Qed.

Lemma split_sep_from_head (sep : char) (piece text : str) :
  sep ∉ piece ->
  exists first rest,
    split_sep_from sep piece text = first :: rest /\ sep ∉ first.
Proof.
  revert piece. induction text as [| c text IH]; intros piece Hpiece; simpl.
  - exists (rev piece), []. split; [reflexivity |].
    rewrite elem_of_rev. exact Hpiece.
  - destruct (N.eqb_spec c sep) as [-> | Hne].
    + exists (rev piece), (split_sep_from sep [] text). split; [reflexivity |].
      rewrite elem_of_rev. exact Hpiece.
    + apply IH. rewrite elem_of_cons. intros [Heq | Hin]; [congruence | contradiction].
Qed.

(** X20: [text.split(sep)] and [sep.join] are inverse on every text, and the
    first piece, which always exists, holds no separator: indexing the
    pieces with [0] cannot fail. *)
Theorem split_sep_join (sep : char) (text : str) :
  join [sep] (split_sep sep text) = text /\
  exists first rest, split_sep sep text = first :: rest /\ sep ∉ first.
Proof.
  split.
  - unfold split_sep. rewrite split_sep_from_join. reflexivity.
  - apply split_sep_from_head. apply not_elem_of_nil.
Qed.

Section TranslationFacts.
Context `{!Sumy, !Translator}.

(** X18: Before any summary has arrived the summary pane is empty, and
    [translate_summary] then does nothing at all: no call to the
    translator, no change of the panel, no exception, whatever entry is
    selected. *)
Theorem translate_nothing (a : MeetingSummarizerApp) (p : translation_panel) :
  summary_output a = [] -> translate_summary a p = (p, [], None).
Proof.
  intros Hempty. unfold translate_summary.
  destruct (split_sep_from_head 32 [] (currentText p) (not_elem_of_nil _))
    as (first & rest & Hsplit & _).
  fold (split_sep 32 (currentText p)) in Hsplit.
  rewrite Hsplit, Hempty. reflexivity.
Qed.

(** X19: Once a summary is shown the translation is never skipped, since a
    summary always starts with its label: with any entry of the selector
    chosen, [translate_summary] calls the translator exactly once, with
    source "auto", the two-letter code at the head of the entry, and the
    summary; the answer becomes the text of the translation pane, and an
    exception leaves the pane as it was. *)
Theorem translate_summary_shown (a : MeetingSummarizerApp) (p : translation_panel)
    (text : str) :
  summary_output a = generate_summary text ->
  language_index p < length language_items ->
  exists code,
    language_codes !! language_index p = Some code /\
    snd (fst (translate_summary a p)) =
      [GoogleTranslator_call (py "auto") code (generate_summary text)] /\
    match GoogleTranslator_translate (py "auto") code (generate_summary text) with
    | inr translated =>
        translate_summary a p =
          (Panel (language_index p) translated,
           [GoogleTranslator_call (py "auto") code (generate_summary text)], None)
    | inl e =>
        translate_summary a p =
          (p, [GoogleTranslator_call (py "auto") code (generate_summary text)], Some e)
    end.
Proof.
  intros Hshown Hindex.
  assert (Hprefix : exists body, generate_summary text = py "Summary: " ++ body).
  { unfold generate_summary.
    destruct (generate_summary_run_cases text) as [[_ ->] | [_ ->]].
    - exists (py "Not enough data for summarization."). reflexivity.
    - eexists. reflexivity. }
  destruct Hprefix as [body Hbody].
  assert (Hsplit : exists code,
             language_codes !! language_index p = Some code /\
             exists rest, split_sep 32 (currentText p) = code :: rest).
  { unfold currentText. destruct p as [idx pane]. simpl in *.
    do 5 (destruct idx as [| idx]; [eexists; split; [reflexivity | eexists; reflexivity] |]).
    simpl in Hindex. lia. }
  destruct Hsplit as (code & Hcode & rest & Hsplit).
  exists code. split; [exact Hcode |].
  assert (Hshows : generate_summary text <> []) by (rewrite Hbody; discriminate).
  unfold translate_summary. rewrite Hsplit, Hshown.
  destruct (generate_summary text) as [| c summary]; [contradiction |].
  destruct (GoogleTranslator_translate (py "auto") code (c :: summary));
    split; reflexivity.
Qed.

End TranslationFacts.

Lemma translate_nothing_witness :
  @translate_summary fake_translator MeetingSummarizerApp_init (Panel 1 []) =
    (Panel 1 [], [], None).
Proof.
  apply (@translate_nothing fake_translator MeetingSummarizerApp_init (Panel 1 [])).
  reflexivity.
Defined.

Lemma translate_summary_shown_witness :
  exists code,
    language_codes !! 2 = Some code /\
    snd (fst (@translate_summary fake_translator
                (update_summary (@generate_summary fake_sumy (py "the quick brown fox"))
                   MeetingSummarizerApp_init)
                (Panel 2 []))) =
      [GoogleTranslator_call (py "auto") code
         (@generate_summary fake_sumy (py "the quick brown fox"))].
Proof.
  destruct (@translate_summary_shown fake_sumy fake_translator
              (update_summary (@generate_summary fake_sumy (py "the quick brown fox"))
                 MeetingSummarizerApp_init)
              (Panel 2 []) (py "the quick brown fox"))
    as (code & Hcode & Hcall & _).
  - reflexivity.
  - vm_compute. lia.
  - exists code. split; [exact Hcode | exact Hcall].
Defined.
